(** * SyntheticDataGEN: a shallow embedding of [synthetic_data_generator.py]

    The generator reads a column catalogue, builds per-table column maps and
    streams [CREATE TABLE] and [INSERT] statements whose values are drawn from
    the operating system's entropy source.

    Conventions of the embedding
    - Python [int] is [Z]; [str] is [string]; a [float] that the program
      handles (the null probability, the result of [uniform(0, 1)], [n / 50])
      is the rational number it denotes, in [Q].
    - A [dict] whose iteration order is observable (table and column maps, the
      row of generated values) is an association list with the update
      discipline of Python dictionaries; a [dict] that is only looked up
      (primary keys, row counts, the parsed catalogue) is a [gmap]; the set of
      primary-key tuples is a [gset].
    - Entropy is a tape [nat -> Z] of raw draws with a read position; every
      call of [secrets] or [uuid] consumes one cell.  Theorems quantify over
      the tape, hence over every possible outcome of the random source.
    - Exceptions are values of [exn]; a raised exception keeps the effects
      already performed (lines already written stay written). *)

From Stdlib Require Import ZArith QArith Ascii String List Lia.
From stdpp Require Import base option list gmap strings pretty.

Local Open Scope string_scope.
Local Open Scope Z_scope.

(** ** Exceptions and the effect monad *)

Inductive exn : Type :=
| NotImplementedError (msg : string)
| ValueError (msg : string)
| KeyError (key : string)
| IndexError.

(** One emitted INSERT: what [output_stream] received, together with the row
    dictionary [_col_values] the statement was built from. *)
Record insert_event : Type := {
  ev_table : string;
  ev_values : list (string * string);
  ev_stmt : string
}.

(** The part of the machine the program acts upon.  [body_runs] is
    bookkeeping that the source does not have: one entry (the table name) per
    execution of the body of the row loop. *)
Record world : Type := {
  tape : nat -> Z;
  pos : nat;
  written : list insert_event;
  body_runs : list string
}.

Inductive run (A : Type) : Type :=
| Done (a : A) (w : world)
| Failed (e : exn) (w : world).
Arguments Done {A} a w.
Arguments Failed {A} e w.

Definition M (A : Type) : Type := world -> run A.

Definition ret {A} (a : A) : M A := fun w => Done a w.
Definition raise {A} (e : exn) : M A := fun w => Failed e w.
Definition bind {A B} (m : M A) (k : A -> M B) : M B :=
  fun w => match m w with
           | Done a w' => k a w'
           | Failed e w' => Failed e w'
           end.

Declare Scope py_scope.
Delimit Scope py_scope with py.
Notation "x <- m ;; k" := (bind m (fun x => k))
  (at level 100, m at next level, right associativity) : py_scope.
Notation "m ;;; k" := (bind m (fun _ => k))
  (at level 100, right associativity) : py_scope.
Local Open Scope py_scope.

Definition final_world {A} (r : run A) : world :=
  match r with Done _ w => w | Failed _ w => w end.

Definition error_of {A} (r : run A) : option exn :=
  match r with Done _ _ => None | Failed e _ => Some e end.

(** ** The entropy source *)

(** The next raw draw. *)
Definition draw : M Z :=
  fun w => Done (tape w (pos w))
                {| tape := tape w; pos := S (pos w);
                   written := written w; body_runs := body_runs w |}.

(** [secrets.randbelow(n)]: uniform in [[0, n)], [ValueError] unless [0 < n]. *)
Definition randbelow (n : Z) : M Z :=
  if n <=? 0 then raise (ValueError "Upper bound must be positive.")
  else (r <- draw ;; ret (r mod n)).

(** [secrets.randbits(k)]: an integer of [k] random bits. *)
Definition randbits (k : Z) : M Z :=
  if k <? 0 then raise (ValueError "number of bits must be non-negative")
  else (r <- draw ;; ret (r mod 2 ^ k)).

(** [secrets.SystemRandom().uniform(0, 1)] is [0 + (1 - 0) * random()], and
    [random()] is a 53-bit integer scaled by [2 ** -53]. *)
Definition uniform01 : M Q :=
  r <- draw ;; ret (Qmake (r mod 2 ^ 53) (2 ^ 53)%positive).

(** [string.ascii_letters + string.digits] *)
Definition alphabet : string :=
  "abcdefghijklmnopqrstuvwxyzABCDEFGHIJKLMNOPQRSTUVWXYZ0123456789".

(** [secrets.choice(alphabet)] *)
Definition choice_alphabet : M ascii :=
  i <- randbelow (Z.of_nat (String.length alphabet)) ;;
  ret (match String.get (Z.to_nat i) alphabet with
       | Some c => c
       | None => "a"%char
       end).

(** ["".join(secrets.choice(alphabet) for _ in range(n))], by the number of
    characters still to draw. *)
Fixpoint random_chars (n : nat) : M string :=
  match n with
  | O => ret ""
  | S n' => c <- choice_alphabet ;; s <- random_chars n' ;; ret (String c s)
  end.

(** ** Rendering of Python values *)

(** [str(i)] for an [int]. *)
Definition str_int (z : Z) : string := pretty z.

(** [f"{i:02}"] for a non-negative [int]. *)
Definition fmt02 (z : Z) : string :=
  if z <? 10 then "0" +:+ str_int z else str_int z.

Definition hex_char (d : Z) : ascii :=
  match String.get (Z.to_nat d) "0123456789abcdef" with
  | Some c => c
  | None => "0"%char
  end.

(** ['%0Nx' % z]: the [n] lowest hexadecimal digits of [z], most significant
    first. *)
Fixpoint hex_fixed (n : nat) (z : Z) (acc : string) : string :=
  match n with
  | O => acc
  | S n' => hex_fixed n' (z / 16) (String (hex_char (z mod 16)) acc)
  end.

Definition substring_from (i : nat) (s : string) : string :=
  String.substring i (String.length s - i) s.

(** [str(uuid.uuid4())]: 128 random bits with the variant and version fields
    forced as [uuid.UUID(bytes=..., version=4)] does, printed 8-4-4-4-12. *)
Definition uuid4_str : M string :=
  r <- draw ;;
  let i0 := r mod 2 ^ 128 in
  let i1 := Z.ldiff i0 (Z.shiftl 49152 48) in
  let i2 := Z.lor i1 (Z.shiftl 32768 48) in
  let i3 := Z.ldiff i2 (Z.shiftl 61440 64) in
  let i4 := Z.lor i3 (Z.shiftl 4 76) in
  let h := hex_fixed 32 i4 "" in
  ret (String.substring 0 8 h +:+ "-" +:+ String.substring 8 4 h +:+ "-"
       +:+ String.substring 12 4 h +:+ "-" +:+ String.substring 16 4 h +:+ "-"
       +:+ substring_from 20 h).

(** The values [random_value] returns: an [int], a [str], or the [float]
    [n / 50]. *)
Inductive pyval : Type :=
| PyInt (z : Z)
| PyStr (s : string)
| PyFloat (q : Q).

(** [str(x)] for a [float] that is a whole number of hundredths, which is what
    [n / 50] is: the shortest decimal that reads back as the same float. *)
Definition str_float (q : Q) : string :=
  let h := (Qnum q * 100) / Z.pos (Qden q) in
  let whole := str_int (h / 100) in
  let frac := h mod 100 in
  if frac mod 10 =? 0 then whole +:+ "." +:+ str_int (frac / 10)
  else whole +:+ "." +:+ fmt02 frac.

Definition py_str (v : pyval) : string :=
  match v with
  | PyInt z => str_int z
  | PyStr s => s
  | PyFloat q => str_float q
  end.

(** ** [pad_string_by_apostrophes] *)

Definition pad_string_by_apostrophes (input_string : string) : string :=
  "'" +:+ input_string +:+ "'".

(** ** [random_value] *)

(** A [case "a" | "b" | ...] pattern of a [match] on a string. *)
Definition one_of (s : string) (alternatives : list string) : bool :=
  existsb (String.eqb s) alternatives.

(** The first statement of [random_value]: [if null_probability:] is false
    for [None] and for [0.0]; otherwise one uniform draw is compared with the
    probability. *)
Definition null_draw (null_probability : option Q) : M bool :=
  match null_probability with
  | None => ret false
  | Some p =>
      if Qeq_bool p 0 then ret false
      else (u <- uniform01 ;; ret (Qle_bool u p))
  end.

(** The fragment [f"{1970 + randbelow(60)}-{1 + randbelow(12):02}-{1 + randbelow(27):02}"]. *)
Definition date_text : M string :=
  y <- randbelow 60 ;;
  m <- randbelow 12 ;;
  d <- randbelow 27 ;;
  ret (str_int (1970 + y) +:+ "-" +:+ fmt02 (1 + m) +:+ "-" +:+ fmt02 (1 + d)).

(** The fragment [f"{randbelow(24):02}:{randbelow(60):02}:{randbelow(60):02}"]. *)
Definition time_text : M string :=
  h <- randbelow 24 ;;
  m <- randbelow 60 ;;
  s <- randbelow 60 ;;
  ret (fmt02 h +:+ ":" +:+ fmt02 m +:+ ":" +:+ fmt02 s).

Definition random_value (data_type : string) (str_size bin_size int_max : Z)
    (null_probability : option Q) : M pyval :=
  is_null <- null_draw null_probability ;;
  if is_null : bool then ret (PyStr "NULL")
  else if one_of data_type ["bit"] then
    b <- randbits 1 ;; ret (PyInt b)
  else if one_of data_type ["char"; "varchar"; "text"; "nchar"; "nvarchar"; "ntext"] then
    s <- random_chars (Z.to_nat str_size) ;;
    ret (PyStr (pad_string_by_apostrophes s))
  else if one_of data_type ["bigint"; "numeric"; "decimal"; "int"] then
    n <- randbelow int_max ;; ret (PyInt n)
  else if one_of data_type ["smallint"] then
    n <- randbelow (Z.min 32767 int_max) ;; ret (PyInt n)
  else if one_of data_type ["tinyint"] then
    n <- randbelow (Z.min 256 int_max) ;; ret (PyInt n)
  else if one_of data_type ["float"] then
    n <- randbelow (Z.min 256 int_max) ;; ret (PyFloat (Qmake n 50))
  else if one_of data_type ["varbinary"; "binary"] then
    b <- randbits bin_size ;;
    ret (PyStr ("CAST(" +:+ str_int b +:+ " AS BINARY(" +:+ str_int bin_size +:+ "))"))
  else if one_of data_type ["date"] then
    d <- date_text ;; ret (PyStr (pad_string_by_apostrophes d))
  else if one_of data_type ["datetime"; "datetime2"] then
    d <- date_text ;;
    t <- time_text ;;
    ret (PyStr (pad_string_by_apostrophes (d +:+ " " +:+ t)))
  else if one_of data_type ["time"] then
    t <- time_text ;; ret (PyStr (pad_string_by_apostrophes t))
  else if one_of data_type ["timestamp"] then
    ret (PyStr "DEFAULT")
  else if one_of data_type ["uniqueidentifier"] then
    u <- uuid4_str ;;
    ret (PyStr ("CONVERT(uniqueidentifier, " +:+ pad_string_by_apostrophes u +:+ ")"))
  else raise (NotImplementedError ("unsupported data type " +:+ data_type)).

(** The type names some [case] of [random_value] accepts, in source order. *)
Definition supported_types : list string :=
  ["bit"; "char"; "varchar"; "text"; "nchar"; "nvarchar"; "ntext";
   "bigint"; "numeric"; "decimal"; "int"; "smallint"; "tinyint"; "float";
   "varbinary"; "binary"; "date"; "datetime"; "datetime2"; "time";
   "timestamp"; "uniqueidentifier"].

(** [str.lower] on ASCII text. *)
Definition lower_ascii (c : ascii) : ascii :=
  let n := nat_of_ascii c in
  if (65 <=? n)%nat && (n <=? 90)%nat then ascii_of_nat (n + 32) else c.

Fixpoint lower (s : string) : string :=
  match s with
  | EmptyString => EmptyString
  | String c s' => String (lower_ascii c) (lower s')
  end.

(** The machine before anything ran, on a given tape. *)
Definition initial_world (t : nat -> Z) : world :=
  {| tape := t; pos := 0; written := []; body_runs := [] |}.

(** ** Ordered dictionaries *)

(** A Python [dict] keeps its keys in insertion order; assigning to a key
    that is present replaces the value where it stands, assigning to a new
    key appends. *)
Section odict.
Context {V : Type}.

Fixpoint od_get (k : string) (d : list (string * V)) : option V :=
  match d with
  | [] => None
  | (k', v) :: d' => if String.eqb k k' then Some v else od_get k d'
  end.

Fixpoint od_set (k : string) (v : V) (d : list (string * V)) : list (string * V) :=
  match d with
  | [] => [(k, v)]
  | (k', v') :: d' =>
      if String.eqb k k' then (k', v) :: d' else (k', v') :: od_set k v d'
  end.

Definition od_keys (d : list (string * V)) : list string := map fst d.
Definition od_values (d : list (string * V)) : list V := map snd d.

(** The position of a key in iteration order. *)
Fixpoint od_index (k : string) (d : list (string * V)) : option nat :=
  match d with
  | [] => None
  | (k', _) :: d' => if String.eqb k k' then Some O else S <$> od_index k d'
  end.

(** What every dictionary satisfies: no key occurs twice. *)
Definition od_wf (d : list (string * V)) : Prop := NoDup (od_keys d).
End odict.

(** ** The data model *)

Record column_def : Type := {
  data_type : string;
  is_nullable : bool;
  max_length : option Z
}.

Abbreviation table_def := (list (string * column_def)).
Abbreviation table_defs := (list (string * list (string * column_def))).

(** ** [generate_table_definitions] *)

Inductive result (A : Type) : Type :=
| Ok (a : A)
| Err (e : exn).
Arguments Ok {A} a.
Arguments Err {A} e.

Definition rbind {A B} (m : result A) (k : A -> result B) : result B :=
  match m with Ok a => k a | Err e => Err e end.

Notation "x <-? m ;; k" := (rbind m (fun x => k))
  (at level 100, m at next level, right associativity) : py_scope.

Definition is_digit (c : ascii) : bool :=
  let n := nat_of_ascii c in (48 <=? n)%nat && (n <=? 57)%nat.

Definition digit_value (c : ascii) : Z := Z.of_nat (nat_of_ascii c) - 48.

(** The characters [int] strips around a numeral: tab, line feed, vertical
    tab, form feed, carriage return and space. *)
Definition is_space (c : ascii) : bool :=
  let n := nat_of_ascii c in ((9 <=? n)%nat && (n <=? 13)%nat) || (n =? 32)%nat.

Fixpoint lstrip (s : string) : string :=
  match s with
  | String c s' => if is_space c then lstrip s' else s
  | EmptyString => EmptyString
  end.

Definition strip (s : string) : string :=
  String.rev (lstrip (String.rev (lstrip s))).

(** Decimal digits, with single underscores allowed between two digits. *)
Fixpoint digits_value (acc : Z) (after_digit : bool) (s : string) : option Z :=
  match s with
  | EmptyString => if after_digit then Some acc else None
  | String c s' =>
      if is_digit c then digits_value (acc * 10 + digit_value c) true s'
      else if Ascii.eqb c "_" then
        (if after_digit then digits_value acc false s' else None)
      else None
  end.

(** [int(s)] for a string of ASCII characters; [ValueError] when the text is
    not a decimal numeral. *)
Definition py_int (s : string) : result Z :=
  let t := strip s in
  let parsed :=
    match t with
    | String "-" t' => Z.opp <$> digits_value 0 false t'
    | String "+" t' => digits_value 0 false t'
    | _ => digits_value 0 false t
    end in
  match parsed with
  | Some z => Ok z
  | None => Err (ValueError ("invalid literal for int() with base 10: " +:+ s))
  end.

(** [parsed_table_def_csv[column][row]].  The argument is typed as a [dict]:
    a missing column is a [KeyError] (the [defaultdict] that [parse_csv]
    builds would answer with an empty list and fail on the index instead);
    a row beyond the end of the column is an [IndexError]. *)
Definition csv_cell (csv : gmap string (list string)) (column : string) (row : nat)
    : result string :=
  match csv !! column with
  | None => Err (KeyError column)
  | Some cells =>
      match cells !! row with
      | Some c => Ok c
      | None => Err IndexError
      end
  end.

(** [_table_defs[name]] on a [defaultdict(dict)]. *)
Definition defs_get (name : string) (defs : table_defs) : table_def :=
  default [] (od_get name defs).

(** The name the catalogue row gives its table, [f"{schema}.{table}"]. *)
Definition full_table_name (csv : gmap string (list string)) (row : nat) : result string :=
  schema <-? csv_cell csv "TABLE_SCHEMA" row ;;
  name <-? csv_cell csv "TABLE_NAME" row ;;
  Ok (schema +:+ "." +:+ name).

(** The column definition a catalogue row carries. *)
Definition row_column_def (csv : gmap string (list string)) (row : nat)
    : result (string * column_def) :=
  raw_len <-? csv_cell csv "CHARACTER_MAXIMUM_LENGTH" row ;;
  _max_len <-? (if String.eqb raw_len "NULL" then Ok None
                else (n <-? py_int raw_len ;; Ok (Some n))) ;;
  column <-? csv_cell csv "COLUMN_NAME" row ;;
  dtype <-? csv_cell csv "DATA_TYPE" row ;;
  nullable <-? csv_cell csv "IS_NULLABLE" row ;;
  Ok (column, {| data_type := dtype;
                 is_nullable := String.eqb nullable "YES";
                 max_length := _max_len |}).

(** One pass of the body of the loop over catalogue rows. *)
Definition add_row (csv : gmap string (list string)) (defs : table_defs) (row : nat)
    : result table_defs :=
  _full_tbl_name <-? full_table_name csv row ;;
  entry <-? row_column_def csv row ;;
  Ok (od_set _full_tbl_name
        (od_set (fst entry) (snd entry) (defs_get _full_tbl_name defs)) defs).

Fixpoint add_rows (csv : gmap string (list string)) (rows : list nat) (defs : table_defs)
    : result table_defs :=
  match rows with
  | [] => Ok defs
  | r :: rows' => defs' <-? add_row csv defs r ;; add_rows csv rows' defs'
  end.

Definition generate_table_definitions (number_of_rows_in_csv : Z)
    (parsed_table_def_csv : gmap string (list string)) : result table_defs :=
  add_rows parsed_table_def_csv (seq 0 (Z.to_nat number_of_rows_in_csv)) [].

(** ** [create_statement] *)

(** The text [_max_length] contributes to an f-string: ["max"] for a negative
    bound, the number otherwise, and [None] printed as Python prints it. *)
Definition max_length_text (m : option Z) : string :=
  match m with
  | Some n => if n <? 0 then "max" else str_int n
  | None => "None"
  end.

(** [_data_type_def] after the [match] in the loop of [create_statement]. *)
Definition data_type_def (c : column_def) : string :=
  if one_of (data_type c) ["char"; "varchar"; "nchar"; "nvarchar"] then
    data_type c +:+ "(" +:+ max_length_text (max_length c) +:+ ")"
  else if one_of (data_type c) ["varbinary"; "binary"] then
    data_type c +:+ "(" +:+ max_length_text (max_length c) +:+ ")"
  else if one_of (data_type c) ["bit"] then "BIT"
  else data_type c.

(** One element of [_column_definitions]. *)
Definition column_definition (entry : string * column_def) : string :=
  let _not_null := if is_nullable (snd entry) then "" else "NOT NULL" in
  "[" +:+ fst entry +:+ "] " +:+ data_type_def (snd entry) +:+ " " +:+ _not_null.

(** [s.replace(a, b)] for single characters. *)
Fixpoint replace_char (a b : ascii) (s : string) : string :=
  match s with
  | EmptyString => EmptyString
  | String c s' => String (if Ascii.eqb c a then b else c) (replace_char a b s')
  end.

(** [_primary_key]: the constraint clause, present when [primary_keys] is a
    non-empty list. *)
Definition primary_key_clause (table_name : string)
    (primary_keys : option (list string)) : string :=
  match primary_keys with
  | Some (k :: ks) =>
      ", CONSTRAINT [PK_" +:+ replace_char "." "_" table_name
      +:+ "] PRIMARY KEY (" +:+ String.concat "," (k :: ks) +:+ ")"
  | _ => ""
  end.

Definition create_statement (table_name : string) (table_def : table_def)
    (primary_keys : option (list string)) : string :=
  let _column_definitions := map column_definition table_def in
  "CREATE TABLE " +:+ table_name +:+ " ("
  +:+ String.concat "," _column_definitions
  +:+ primary_key_clause table_name primary_keys +:+ ")".

(** ** [insert_statement] *)

(** The string and binary size bounds handed to [random_value] for a column:
    the configured bounds, capped by the column's length when it has a
    non-negative one. *)
Definition size_bounds (str_max_size bin_max_size : Z) (c : column_def) : Z * Z :=
  match max_length c with
  | Some l =>
      if 0 <=? l then (Z.min str_max_size l, Z.min bin_max_size l)
      else (str_max_size, bin_max_size)
  | None => (str_max_size, bin_max_size)
  end.

(** The loop of [insert_statement] over [table_def.items()], threading the
    dictionary [_values].  [null_probability] is the module constant
    [NULL_PROBABILITY]. *)
Fixpoint insert_values (columns : table_def) (str_max_size bin_max_size int_max : Z)
    (null_probability : Q) (_values : list (string * string))
    : M (list (string * string)) :=
  match columns with
  | [] => ret _values
  | (_col_name, _col_def) :: rest =>
      let bounds := size_bounds str_max_size bin_max_size _col_def in
      v <- random_value (data_type _col_def) (fst bounds) (snd bounds) int_max
             (if is_nullable _col_def then Some null_probability else None) ;;
      insert_values rest str_max_size bin_max_size int_max null_probability
        (od_set _col_name (py_str v) _values)
  end.

Definition insert_statement (table_name : string) (table_def : table_def)
    (str_max_size bin_max_size int_max : Z) (null_probability : Q)
    : M (list (string * string) * string) :=
  _values <- insert_values table_def str_max_size bin_max_size int_max
               null_probability [] ;;
  ret (_values,
       "INSERT INTO " +:+ table_name +:+ " VALUES("
       +:+ String.concat "," (od_values _values) +:+ ")").

(** ** [stream_create_statements] *)

Definition newline : string := String (ascii_of_nat 10) EmptyString.

(** The lines handed to [output_stream], in order. *)
Definition stream_create_statements (table_definitions : table_defs)
    (primary_keys : gmap string (option (list string))) : list string :=
  map (fun entry =>
         create_statement (fst entry) (snd entry)
           (mjoin (primary_keys !! fst entry)) +:+ ";" +:+ newline)
      table_definitions.

(** ** [stream_insert_statements] *)

(** [output_stream(_insert_stmt + ";\n")], recorded with the row it renders. *)
Definition emit (ev : insert_event) : M unit :=
  fun w => Done tt {| tape := tape w; pos := pos w;
                      written := written w ++ [ev];
                      body_runs := body_runs w |}.

(** Bookkeeping only: the body of the row loop starts once more. *)
Definition enter_body (table_name : string) : M unit :=
  fun w => Done tt {| tape := tape w; pos := pos w;
                      written := written w;
                      body_runs := body_runs w ++ [table_name] |}.

(** [range(n)] *)
Definition range (n : Z) : list Z := map Z.of_nat (seq 0 (Z.to_nat n)).

(** [_value], the list of [_col_values[_pk_col]] over the key columns. *)
Fixpoint pk_value (pk_cols : list string) (_col_values : list (string * string))
    : M (list string) :=
  match pk_cols with
  | [] => ret []
  | _pk_col :: rest =>
      match od_get _pk_col _col_values with
      | None => raise (KeyError _pk_col)
      | Some v => vs <- pk_value rest _col_values ;; ret (v :: vs)
      end
  end.

(** The loop [for pos in range(_rows_per_table)] over the positions that are
    left.  The assignment [pos += 1] before [continue] rebinds a name the
    iterator overwrites at the next step, so it leaves no trace here. *)
Fixpoint row_loop (positions : list Z) (_table_name : string) (_table_def : table_def)
    (max_string_size max_binary_array_size integer_maximum : Z) (null_probability : Q)
    (primary_keys : gmap string (option (list string)))
    (_pk_set : gset (list string)) : M unit :=
  match positions with
  | [] => ret tt
  | _ :: rest =>
      let continue_with := row_loop rest _table_name _table_def max_string_size
                             max_binary_array_size integer_maximum null_probability
                             primary_keys in
      enter_body _table_name ;;;
      row <- insert_statement _table_name _table_def max_string_size
               max_binary_array_size integer_maximum null_probability ;;
      let ev := {| ev_table := _table_name; ev_values := fst row; ev_stmt := snd row |} in
      match primary_keys !! _table_name with
      | Some None => continue_with _pk_set
      | Some (Some pk_cols) =>
          _value <- pk_value pk_cols (fst row) ;;
          if decide (_value ∈ _pk_set) then continue_with _pk_set
          else (emit ev ;;; continue_with ({[ _value ]} ∪ _pk_set))
      | None => emit ev ;;; continue_with _pk_set
      end
  end.

(** [number_of_rows_per_table[_table_name]], clamped by the optional cap. *)
Definition rows_per_table (number_of_rows_per_table : gmap string Z)
    (max_rows_per_table : option Z) (_table_name : string) : M Z :=
  match number_of_rows_per_table !! _table_name with
  | None => raise (KeyError _table_name)
  | Some requested =>
      ret (match max_rows_per_table with
           | Some cap => Z.min cap requested
           | None => requested
           end)
  end.

(** The loop over [_table_definitions.items()]. *)
Fixpoint table_loop (tables : table_defs) (number_of_rows_per_table : gmap string Z)
    (max_string_size max_binary_array_size integer_maximum : Z) (null_probability : Q)
    (max_rows_per_table : option Z)
    (primary_keys : gmap string (option (list string))) : M unit :=
  match tables with
  | [] => ret tt
  | (_table_name, _table_def) :: rest =>
      _rows_per_table <- rows_per_table number_of_rows_per_table
                           max_rows_per_table _table_name ;;
      row_loop (range _rows_per_table) _table_name _table_def max_string_size
        max_binary_array_size integer_maximum null_probability primary_keys ∅ ;;;
      table_loop rest number_of_rows_per_table max_string_size
        max_binary_array_size integer_maximum null_probability
        max_rows_per_table primary_keys
  end.

(** [stream_insert_statements].  The function reads the module-level names
    [_table_definitions] and [NULL_PROBABILITY]; they are arguments here. *)
Definition stream_insert_statements (_table_definitions : table_defs)
    (null_probability : Q) (number_of_rows_per_table : gmap string Z)
    (max_string_size max_binary_array_size integer_maximum : Z)
    (max_rows_per_table : option Z)
    (primary_keys : gmap string (option (list string))) : M unit :=
  table_loop _table_definitions number_of_rows_per_table max_string_size
    max_binary_array_size integer_maximum null_probability max_rows_per_table
    primary_keys.

(** The text [output_stream] received for the INSERT statements. *)
Definition output_lines (w : world) : list string :=
  map (fun ev => ev_stmt ev +:+ ";" +:+ newline) (written w).

(** The INSERT statements a world holds for one table. *)
Definition inserts_of (t : string) (w : world) : list insert_event :=
  filter (fun ev => ev_table ev = t) (written w).

(** How often the body of the row loop ran for one table. *)
Definition iterations_of (t : string) (w : world) : nat :=
  length (filter (fun name => name = t) (body_runs w)).

(** The primary-key tuple of an emitted row, read off its values. *)
Definition key_of (pk_cols : list string) (ev : insert_event) : list (option string) :=
  map (fun c => od_get c (ev_values ev)) pk_cols.

(** ** Observations on runs *)

Definition value_of {A} (r : run A) : option A :=
  match r with Done a _ => Some a | Failed _ _ => None end.

(** Whether the null draw of [random_value] fires in a given world. *)
Definition null_fires (null_probability : option Q) (w : world) : bool :=
  match null_draw null_probability w with
  | Done b _ => b
  | Failed _ _ => false
  end.

(** The uniform draw the next cell of the tape yields. *)
Definition next_uniform (w : world) : Q :=
  Qmake (tape w (pos w) mod 2 ^ 53) (2 ^ 53)%positive.

(** Computations that never raise the unsupported-type error. *)
Definition dispatched {A} (m : M A) : Prop :=
  forall w msg, error_of (m w) <> Some (NotImplementedError msg).


(** Computations that write no line and do not enter the row loop: they only
    read the tape. *)
Definition quiet {A} (m : M A) : Prop :=
  forall w, written (final_world (m w)) = written w /\
            body_runs (final_world (m w)) = body_runs w /\
            tape (final_world (m w)) = tape w.

(** The row count the loop of one table aims at. *)
Definition target_rows (max_rows_per_table : option Z) (requested : Z) : Z :=
  match max_rows_per_table with
  | Some cap => Z.min cap requested
  | None => requested
  end.

(** An emitted row of a table is one that [insert_statement] generated for
    it. *)
Definition generated_row (t : string) (def : table_def) (ss bs im : Z) (np : Q)
    (ev : insert_event) : Prop :=
  ev_table ev = t /\
  exists wa wb,
    insert_statement t def ss bs im np wa = Done (ev_values ev, ev_stmt ev) wb.

(** ** Sample inputs *)

(** A table with one non-nullable [bit] column. *)
Definition flag_table : table_def :=
  [("b", {| data_type := "bit"; is_nullable := false; max_length := None |})].

(** A table with one non-nullable [int] column. *)
Definition id_table : table_def :=
  [("Id", {| data_type := "int"; is_nullable := false; max_length := None |})].

(** A tape that counts up. *)
Definition counting_tape (n : nat) : Z := Z.of_nat n.

(** ** [parse_csv] *)

(** The inner loop [for _position, _column in enumerate(column_names)] on one
    row, from position [position] on: [parsed_csv[_column].append(row[pos])]
    on a [defaultdict(list)]. *)
Fixpoint append_fields (column_names : list string) (position : nat)
    (_csv_row : list string) (parsed_csv : gmap string (list string))
    : result (gmap string (list string)) :=
  match column_names with
  | [] => Ok parsed_csv
  | _column :: rest =>
      match _csv_row !! position with
      | None => Err IndexError
      | Some field =>
          append_fields rest (S position) _csv_row
            (<[_column := (default [] (parsed_csv !! _column) ++ [field])%list]>
               parsed_csv)
      end
  end.

(** The loop over the rows the CSV reader yields. *)
Fixpoint parse_rows (_csv_rows : list (list string)) (column_names : list string)
    (csv_size : Z) (parsed_csv : gmap string (list string))
    : result (Z * gmap string (list string)) :=
  match _csv_rows with
  | [] => Ok (csv_size, parsed_csv)
  | _csv_row :: rest =>
      parsed_csv' <-? append_fields column_names 0 _csv_row parsed_csv ;;
      parse_rows rest column_names (csv_size + 1) parsed_csv'
  end.

(** [parse_csv], on the rows [csv.reader] produces for the file (a list of
    fields per line); opening and tokenising the file is outside the
    embedding. *)
Definition parse_csv (_csv_rows : list (list string)) (column_names : list string)
    : result (Z * gmap string (list string)) :=
  parse_rows _csv_rows column_names 0 ∅.

(** The column names the script passes to [parse_csv]. *)
Definition catalogue_columns : list string :=
  ["TABLE_CATALOG"; "TABLE_SCHEMA"; "TABLE_NAME"; "COLUMN_NAME";
   "ORDINAL_POSITION"; "COLUMN_DEFAULT"; "IS_NULLABLE"; "DATA_TYPE";
   "CHARACTER_MAXIMUM_LENGTH"].

(** ** The catalogue as the script loads it *)

(** The first statement of the script body: [generate_table_definitions]
    applied to the pair [parse_csv] returns for the catalogue file and the
    nine column names, on the rows of that file. *)
Definition load_table_definitions (_csv_rows : list (list string))
    : result table_defs :=
  parsed <-? parse_csv _csv_rows catalogue_columns ;;
  generate_table_definitions (fst parsed) (snd parsed).

(** What one catalogue line says when it is read on its own: the table, the
    column and the column's definition.  Used to state what the detour
    through the per-column lists amounts to. *)
Definition catalogue_entry (row : list string)
    : result (string * (string * column_def)) :=
  match row with
  | _ :: schema :: table :: column :: _ :: _ :: nullable :: dtype :: len :: _ =>
      _max_len <-? (if String.eqb len "NULL" then Ok None
                    else (n <-? py_int len ;; Ok (Some n))) ;;
      Ok (schema +:+ "." +:+ table,
          (column, {| data_type := dtype;
                      is_nullable := String.eqb nullable "YES";
                      max_length := _max_len |}))
  | _ => Err IndexError
  end.

(** The catalogue lines applied one after the other to a dictionary of
    tables. *)
Fixpoint add_entries (rows : list (list string)) (defs : table_defs)
    : result table_defs :=
  match rows with
  | [] => Ok defs
  | row :: rest =>
      entry <-? catalogue_entry row ;;
      add_entries rest
        (od_set (fst entry)
           (od_set (fst (snd entry)) (snd (snd entry)) (defs_get (fst entry) defs))
           defs)
  end.

(** The distinct names of a list, each at the place of its first
    occurrence: the order in which a dictionary comes to hold keys that are
    assigned one after the other. *)
Definition first_occurrences (names : list string) : list string :=
  fold_left (fun seen name => if decide (name ∈ seen) then seen
                              else (seen ++ [name])%list) names [].

(** Computations that raise nothing, whatever the tape holds. *)
Definition unfailing {A} (m : M A) : Prop :=
  forall w, error_of (m w) = None.

(** The characters of the alphabet the generated strings are drawn from. *)
Definition alphabet_chars : list ascii := list_ascii_of_string alphabet.

(** The calendar part of a generated value: year, month and day within the
    ranges the code draws from. *)
Definition date_form (text : string) : Prop :=
  exists y m d, text = str_int y +:+ "-" +:+ fmt02 m +:+ "-" +:+ fmt02 d /\
    1970 <= y < 2030 /\ 1 <= m <= 12 /\ 1 <= d <= 27.

Definition time_form (text : string) : Prop :=
  exists h m s, text = fmt02 h +:+ ":" +:+ fmt02 m +:+ ":" +:+ fmt02 s /\
    0 <= h < 24 /\ 0 <= m < 60 /\ 0 <= s < 60.

(** The entry [insert_statement] stores for a column: under the column's
    name, the text of a value [random_value] returned for the column's type,
    with the size bounds of the column and the null probability when, and
    only when, the column is nullable. *)
Definition column_value (ss bs im : Z) (np : Q) (column : string * column_def)
    (entry : string * string) : Prop :=
  fst entry = fst column /\
  exists v wa wb,
    random_value (data_type (snd column))
      (fst (size_bounds ss bs (snd column)))
      (snd (size_bounds ss bs (snd column))) im
      (if is_nullable (snd column) then Some np else None) wa = Done v wb /\
    snd entry = py_str v.

(** The three ways a value can fail to generate, with their causes. *)
Definition value_fault (dt : string) (bs im : Z) (e : exn) : Prop :=
  (e = NotImplementedError ("unsupported data type " +:+ dt) /\
   (dt ∉ supported_types)) \/
  (e = ValueError "Upper bound must be positive." /\
   (dt ∈ ["bigint"; "numeric"; "decimal"; "int"; "smallint"; "tinyint"; "float"]) /\
   im <= 0) \/
  (e = ValueError "number of bits must be non-negative" /\
   (dt ∈ ["varbinary"; "binary"]) /\ bs < 0).

(** A table with a text column of declared length 5, a nullable text column
    without a limit and an integer column. *)
Definition person_table : table_def :=
  [("Id", {| data_type := "int"; is_nullable := false; max_length := None |});
   ("Code", {| data_type := "char"; is_nullable := false; max_length := Some 5 |});
   ("Note", {| data_type := "nvarchar"; is_nullable := true;
               max_length := Some (-1) |})].
(** The causes of an error of [stream_insert_statements]: a table without a
    row count, a key column the table does not have, or a column whose value
    cannot be generated. *)
Definition run_fault (defs : table_defs) (nrows : gmap string Z)
    (pks : gmap string (option (list string))) (bs im : Z) (e : exn) : Prop :=
  (exists t, (t ∈ od_keys defs) /\ nrows !! t = None /\ e = KeyError t) \/
  (exists t def cols c,
     ((t, def) ∈ defs) /\ pks !! t = Some (Some cols) /\
     (c ∈ cols) /\ (c ∉ od_keys def) /\ e = KeyError c) \/
  (exists t def c d,
     ((t, def) ∈ defs) /\ ((c, d) ∈ def) /\ value_fault (data_type d) bs im e).

(** What stops the row loop of a table at its first row, whatever the random
    source yields. *)
Definition blocked (def : table_def) (key : option (option (list string)))
    : Prop :=
  (exists c d, ((c, d) ∈ def) /\ is_nullable d = false /\
     (data_type d ∉ supported_types)) \/
  (exists cols c, key = Some (Some cols) /\ (c ∈ cols) /\ (c ∉ od_keys def)).

(** The table names of the emitted statements when table [i] contributes
    [ks !! i] statements. *)
Definition grouped (tables : list string) (ks : list nat) : list string :=
  concat (zip_with (fun t k => replicate k t) tables ks).

(** Two tables, the second with a key column. *)
Definition two_tables : table_defs :=
  [("dbo.Person", person_table); ("dbo.T", id_table)].
(** * Properties *)

(** ** The null draw *)

Lemma null_draw_done np w : exists b w', null_draw np w = Done b w'.
Proof.
  destruct np as [p|]; simpl; [|by eauto].
  destruct (Qeq_bool p 0); [by eauto|].
  unfold bind, uniform01, draw, ret; simpl. eauto.
Qed.

Lemma null_draw_fires np w :
  exists w', null_draw np w = Done (null_fires np w) w'.
Proof.
  unfold null_fires. destruct (null_draw_done np w) as (b & w' & ->). eauto.
Qed.

Lemma null_fires_spec p w :
  null_fires (Some p) w = negb (Qeq_bool p 0) && Qle_bool (next_uniform w) p.
Proof.
  unfold null_fires, null_draw. destruct (Qeq_bool p 0); reflexivity.
Qed.

Lemma null_fires_None w : null_fires None w = false.
Proof. reflexivity. Qed.

Lemma null_fires_zero p w : (p == 0)%Q -> null_fires (Some p) w = false.
Proof.
  intros Hp. rewrite null_fires_spec.
  apply Qeq_bool_iff in Hp. by rewrite Hp.
Qed.

Lemma next_uniform_le_1 w : (next_uniform w <= 1)%Q.
Proof.
  unfold next_uniform, Qle. cbn [Qnum Qden].
  pose proof (Z.mod_pos_bound (tape w (pos w)) (2 ^ 53) ltac:(lia)) as Hb.
  change (Z.pos (2 ^ 53)) with (2 ^ 53). lia.
Qed.

Lemma null_fires_one p w : (p == 1)%Q -> null_fires (Some p) w = true.
Proof.
  intros Hp. rewrite null_fires_spec.
  assert (Qeq_bool p 0 = false) as ->.
  { destruct (Qeq_bool p 0) eqn:E; [|done].
    apply Qeq_bool_iff in E. rewrite E in Hp. discriminate Hp. }
  apply Qle_bool_iff. rewrite Hp. apply next_uniform_le_1.
Qed.

(** ** Dispatch on the type name *)

Lemma one_of_In s l : one_of s l = true <-> In s l.
Proof.
  unfold one_of. rewrite existsb_exists. split.
  - intros (x & Hx & He). apply String.eqb_eq in He. by subst.
  - intros H. exists s. split; [done|]. apply String.eqb_refl.
Qed.

Lemma one_of_false s l l' :
  ~ In s l' -> (forall x, In x l -> In x l') -> one_of s l = false.
Proof.
  intros Hn Hsub. destruct (one_of s l) eqn:E; [|done].
  apply one_of_In in E. exfalso. auto.
Qed.

Ltac not_supported H :=
  rewrite (one_of_false _ _ supported_types H) by (simpl; tauto).

Lemma random_value_null dt ss bs im np w :
  null_fires np w = true ->
  exists w', random_value dt ss bs im np w = Done (PyStr "NULL") w'.
Proof.
  intros Hf. destruct (null_draw_fires np w) as (w' & Hd).
  exists w'. unfold random_value, bind. by rewrite Hd, Hf.
Qed.

Lemma random_value_unsupported dt ss bs im np w :
  ~ In dt supported_types ->
  null_fires np w = false ->
  exists w', random_value dt ss bs im np w
             = Failed (NotImplementedError ("unsupported data type " +:+ dt)) w'.
Proof.
  intros Hn Hf. destruct (null_draw_fires np w) as (w' & Hd).
  exists w'. unfold random_value, bind. rewrite Hd, Hf.
  repeat not_supported Hn. reflexivity.
Qed.

(** Once the null draw has not fired, no branch of the dispatch yields the
    text [NULL]. *)
Lemma random_value_not_null dt ss bs im np w w' :
  null_fires np w = false ->
  random_value dt ss bs im np w <> Done (PyStr "NULL") w'.
Proof.
  intros Hf Heq. destruct (null_draw_fires np w) as (w1 & Hd).
  unfold random_value, bind in Heq. rewrite Hd, Hf in Heq.
  unfold ret, raise, pad_string_by_apostrophes in Heq.
  repeat match type of Heq with
         | context [if ?b then _ else _] => destruct b
         end;
    repeat match type of Heq with
           | context [match ?m ?x with Done _ _ => _ | Failed _ _ => _ end] =>
               destruct (m x)
           end;
    try discriminate Heq;
    injection Heq as Hs _; discriminate Hs.
Qed.

Lemma supported_types_lower :
  Forall (fun s => lower s = s) supported_types.
Proof. repeat constructor. Qed.

Lemma other_casing_unsupported dt s :
  In s supported_types -> lower dt = s -> dt <> s -> ~ In dt supported_types.
Proof.
  intros Hs Hl Hne Hin.
  pose proof (proj1 (Forall_forall _ _) supported_types_lower dt
                (proj2 (list_elem_of_In _ _) Hin)) as Hfix.
  congruence.
Qed.

Lemma dispatched_ret {A} (a : A) : dispatched (ret a).
Proof. intros w msg. discriminate. Qed.

Lemma dispatched_bind {A B} (m : M A) (k : A -> M B) :
  dispatched m -> (forall a, dispatched (k a)) -> dispatched (bind m k).
Proof.
  intros Hm Hk w msg. unfold bind.
  destruct (m w) as [a w'|e w'] eqn:E.
  - apply Hk.
  - specialize (Hm w msg). by rewrite E in Hm.
Qed.

Lemma dispatched_draw : dispatched draw.
Proof. intros w msg. discriminate. Qed.

Lemma dispatched_randbelow n : dispatched (randbelow n).
Proof.
  unfold randbelow. destruct (n <=? 0).
  - intros w msg. discriminate.
  - apply dispatched_bind; [apply dispatched_draw|intros; apply dispatched_ret].
Qed.

Lemma dispatched_randbits k : dispatched (randbits k).
Proof.
  unfold randbits. destruct (k <? 0).
  - intros w msg. discriminate.
  - apply dispatched_bind; [apply dispatched_draw|intros; apply dispatched_ret].
Qed.

Lemma dispatched_random_chars n : dispatched (random_chars n).
Proof.
  induction n as [|n IH]; simpl; [apply dispatched_ret|].
  apply dispatched_bind.
  - unfold choice_alphabet. apply dispatched_bind;
      [apply dispatched_randbelow|intros; apply dispatched_ret].
  - intros c. apply dispatched_bind; [exact IH|intros; apply dispatched_ret].
Qed.

Create HintDb dispatch.
#[local] Hint Resolve dispatched_ret dispatched_draw dispatched_randbelow
  dispatched_randbits dispatched_random_chars : dispatch.
#[local] Hint Extern 2 (dispatched (bind _ _)) =>
  apply dispatched_bind; [|intros] : dispatch.

Lemma dispatched_date_text : dispatched date_text.
Proof. unfold date_text. auto 10 with dispatch. Qed.

Lemma dispatched_time_text : dispatched time_text.
Proof. unfold time_text. auto 10 with dispatch. Qed.

Lemma dispatched_uuid4_str : dispatched uuid4_str.
Proof. unfold uuid4_str. auto with dispatch. Qed.

#[local] Hint Resolve dispatched_date_text dispatched_time_text
  dispatched_uuid4_str : dispatch.

Lemma dispatched_null_draw np : dispatched (null_draw np).
Proof.
  intros w msg. destruct (null_draw_done np w) as (b & w' & ->). discriminate.
Qed.

(** A supported name is dispatched: whatever happens, it is not the
    unsupported-type failure. *)
Lemma random_value_supported dt ss bs im np :
  In dt supported_types -> dispatched (random_value dt ss bs im np).
Proof.
  intros Hin. unfold random_value.
  apply dispatched_bind; [apply dispatched_null_draw|].
  intros [|]; [apply dispatched_ret|].
  repeat match goal with
         | |- dispatched (if one_of dt ?l then _ else _) =>
             destruct (one_of dt l) eqn:?; [auto 10 with dispatch|]
         end.
  exfalso. simpl in Hin.
  repeat (destruct Hin as [<- | Hin]; [discriminate|]).
  destruct Hin.
Qed.

(** ** Claims about [random_value] *)

(** C4, as amended.  For every type name outside the supported set,
    [random_value] raises the unsupported-type error and produces no value
    whenever the null draw does not fire (the null probability is [None] or
    zero, or the uniform draw lies above it), whatever the size and integer
    bounds are. *)
Theorem random_value_unsupported_type dt ss bs im np w :
  dt ∉ supported_types ->
  null_fires np w = false ->
  value_of (random_value dt ss bs im np w) = None /\
  error_of (random_value dt ss bs im np w)
  = Some (NotImplementedError ("unsupported data type " +:+ dt)).
Proof.
  intros Hn Hf. rewrite list_elem_of_In in Hn.
  destruct (random_value_unsupported dt ss bs im np w Hn Hf) as (w' & ->).
  split; reflexivity.
Qed.

Lemma random_value_unsupported_type_witness :
  value_of (random_value "geography" 20 20 36000 None (initial_world (fun _ => 0)))
  = None /\
  error_of (random_value "geography" 20 20 36000 None (initial_world (fun _ => 0)))
  = Some (NotImplementedError "unsupported data type geography").
Proof.
  apply (random_value_unsupported_type "geography" 20 20 36000 None
           (initial_world (fun _ => 0))).
  - apply (bool_decide_unpack _). vm_compute. reflexivity.
  - reflexivity.
Defined.

(** C4 as stated fails: with null probability 1 an unsupported type name
    yields the value [NULL] and no error, because the null draw comes before
    the dispatch. *)
Lemma random_value_unsupported_type_counterexample :
  ("geography" ∉ supported_types) /\
  value_of (random_value "geography" 20 20 36000 (Some 1%Q)
              (initial_world (fun _ => 0))) = Some (PyStr "NULL") /\
  error_of (random_value "geography" 20 20 36000 (Some 1%Q)
              (initial_world (fun _ => 0))) = None.
Proof.
  split; [|split; reflexivity].
  apply (bool_decide_unpack _). vm_compute. reflexivity.
Qed.

(** C5.  The NULL marker follows the null-probability argument: with [None]
    it is never returned, with probability 1 it always is, with probability 0
    it never is, and whenever the draw fires the marker is returned for every
    type name, before any type-specific generation. *)
Theorem random_value_null_marker dt ss bs im w :
  value_of (random_value dt ss bs im None w) <> Some (PyStr "NULL") /\
  (forall p, (p == 1)%Q ->
     value_of (random_value dt ss bs im (Some p) w) = Some (PyStr "NULL")) /\
  (forall p, (p == 0)%Q ->
     value_of (random_value dt ss bs im (Some p) w) <> Some (PyStr "NULL")) /\
  (forall np, null_fires np w = true ->
     value_of (random_value dt ss bs im np w) = Some (PyStr "NULL")) /\
  (forall np, null_fires np w = false ->
     value_of (random_value dt ss bs im np w) <> Some (PyStr "NULL")).
Proof.
  assert (Hnot : forall np, null_fires np w = false ->
            value_of (random_value dt ss bs im np w) <> Some (PyStr "NULL")).
  { intros np Hf Hv.
    destruct (random_value dt ss bs im np w) as [v w'|e w'] eqn:E; [|discriminate].
    injection Hv as ->. by apply random_value_not_null in E. }
  assert (Hyes : forall np, null_fires np w = true ->
            value_of (random_value dt ss bs im np w) = Some (PyStr "NULL")).
  { intros np Hf. by destruct (random_value_null dt ss bs im np w Hf) as (w' & ->). }
  repeat split.
  - apply Hnot, null_fires_None.
  - intros p Hp. by apply Hyes, null_fires_one.
  - intros p Hp. by apply Hnot, null_fires_zero.
  - exact Hyes.
  - exact Hnot.
Qed.

Lemma random_value_null_marker_witness :
  value_of (random_value "int" 20 20 36000 (Some 1%Q) (initial_world (fun _ => 0)))
  = Some (PyStr "NULL").
Proof.
  apply (random_value_null_marker "int" 20 20 36000 (initial_world (fun _ => 0))).
  reflexivity.
Defined.

(** C6, as amended.  The dispatch is an exact, case-sensitive match: a name
    that is a supported name in another casing is not dispatched and gets the
    unsupported-type failure (when the null draw does not fire), while each
    supported name as written in the source never gets that failure. *)
Theorem random_value_case_sensitive dt s ss bs im np w :
  s ∈ supported_types ->
  lower dt = s ->
  dt <> s ->
  null_fires np w = false ->
  error_of (random_value dt ss bs im np w)
  = Some (NotImplementedError ("unsupported data type " +:+ dt)) /\
  error_of (random_value s ss bs im np w)
  <> Some (NotImplementedError ("unsupported data type " +:+ s)).
Proof.
  intros Hs Hl Hne Hf. rewrite list_elem_of_In in Hs. split.
  - pose proof (other_casing_unsupported dt s Hs Hl Hne) as Hn.
    by destruct (random_value_unsupported dt ss bs im np w Hn Hf) as (w' & ->).
  - by apply random_value_supported.
Qed.

Lemma random_value_case_sensitive_witness :
  error_of (random_value "VarChar" 20 20 36000 None (initial_world (fun _ => 0)))
  = Some (NotImplementedError "unsupported data type VarChar") /\
  error_of (random_value "varchar" 20 20 36000 None (initial_world (fun _ => 0)))
  <> Some (NotImplementedError "unsupported data type varchar").
Proof.
  apply (random_value_case_sensitive "VarChar" "varchar" 20 20 36000 None
           (initial_world (fun _ => 0))).
  - apply (bool_decide_unpack _). vm_compute. reflexivity.
  - reflexivity.
  - discriminate.
  - reflexivity.
Defined.

(** C6 as stated fails: [BIT], [VarChar] and [INT] do not behave as [bit],
    [varchar] and [int] do; each gets the unsupported-type failure where the
    lowercase name yields a value. *)
Lemma random_value_case_sensitive_counterexample :
  let w := initial_world (fun _ => 0) in
  (lower "BIT" = "bit" /\
   value_of (random_value "bit" 20 20 36000 None w) = Some (PyInt 0) /\
   error_of (random_value "BIT" 20 20 36000 None w)
   = Some (NotImplementedError "unsupported data type BIT")) /\
  (lower "VarChar" = "varchar" /\
   value_of (random_value "varchar" 2 20 36000 None w) = Some (PyStr "'aa'") /\
   error_of (random_value "VarChar" 2 20 36000 None w)
   = Some (NotImplementedError "unsupported data type VarChar")) /\
  (lower "INT" = "int" /\
   value_of (random_value "int" 20 20 36000 None w) = Some (PyInt 0) /\
   error_of (random_value "INT" 20 20 36000 None w)
   = Some (NotImplementedError "unsupported data type INT")).
Proof. vm_compute. repeat split. Qed.

(** ** Claims about [create_statement] *)

Lemma pretty_N_go_not_m x s s' : s <> "m" +:+ s' -> pretty_N_go x s <> "m" +:+ s'.
Proof.
  revert s. induction (N.lt_wf_0 x) as [x _ IH]. intros s Hs.
  destruct (decide (x = 0%N)) as [->|Hx].
  - by rewrite pretty_N_go_0.
  - rewrite pretty_N_go_step by lia. apply IH.
    + apply N.div_lt; lia.
    + unfold pretty_N_char. repeat case_match; discriminate.
Qed.

Lemma str_int_not_max z : str_int z <> "max".
Proof.
  unfold str_int, pretty, pretty_Z. destruct z as [|p|p]; [discriminate| |discriminate].
  unfold pretty, pretty_positive, pretty, pretty_N.
  case_decide; [discriminate|]. by apply (pretty_N_go_not_m _ "" "ax").
Qed.

Lemma max_length_text_max m :
  max_length_text m = "max" <-> exists n, m = Some n /\ n < 0.
Proof.
  unfold max_length_text. split.
  - destruct m as [n|]; [|discriminate].
    destruct (n <? 0) eqn:E.
    + intros _. exists n. split; [done|]. by apply Z.ltb_lt.
    + intros H. by apply str_int_not_max in H.
  - intros (n & -> & Hn). apply Z.ltb_lt in Hn. by rewrite Hn.
Qed.

(** The column types that get a length clause. *)
Lemma data_type_def_sized c :
  one_of (data_type c) ["char"; "varchar"; "nchar"; "nvarchar"; "varbinary"; "binary"] = true ->
  data_type_def c = data_type c +:+ "(" +:+ max_length_text (max_length c) +:+ ")".
Proof.
  intros H. apply one_of_In in H. unfold data_type_def. simpl in H.
  repeat (destruct H as [<- | H]; [reflexivity|]). destruct H.
Qed.

Lemma data_type_def_unsized c :
  one_of (data_type c) ["char"; "varchar"; "nchar"; "nvarchar"; "varbinary"; "binary"] = false ->
  data_type_def c = if String.eqb (data_type c) "bit" then "BIT" else data_type c.
Proof.
  intros H. unfold data_type_def.
  assert (Hn : ~ In (data_type c)
                 ["char"; "varchar"; "nchar"; "nvarchar"; "varbinary"; "binary"]).
  { intros Hin. apply one_of_In in Hin. congruence. }
  rewrite (one_of_false _ ["char"; "varchar"; "nchar"; "nvarchar"] _ Hn)
    by (simpl; tauto).
  rewrite (one_of_false _ ["varbinary"; "binary"] _ Hn) by (simpl; tauto).
  unfold one_of. simpl. by rewrite orb_false_r.
Qed.

(** C7.  In the output of [create_statement] every column is rendered as
    [[name] TYPE NOTNULL]; the type text carries a parenthesised length
    clause exactly for the types char, varchar, nchar, nvarchar, varbinary and
    binary; and the clause reads [max] exactly when the column's max length
    is a negative number, the decimal bound when it is a non-negative number
    (and the text [None] in the one remaining case, a missing length). *)
Theorem create_statement_length_clause table_name table_def primary_keys :
  create_statement table_name table_def primary_keys
  = "CREATE TABLE " +:+ table_name +:+ " ("
    +:+ String.concat "," (map column_definition table_def)
    +:+ primary_key_clause table_name primary_keys +:+ ")" /\
  forall name c,
    let sized := one_of (data_type c)
                   ["char"; "varchar"; "nchar"; "nvarchar"; "varbinary"; "binary"] in
    column_definition (name, c)
    = "[" +:+ name +:+ "] " +:+ data_type_def c +:+ " "
      +:+ (if is_nullable c then "" else "NOT NULL") /\
    (sized = true ->
       data_type_def c
       = data_type c +:+ "(" +:+ max_length_text (max_length c) +:+ ")") /\
    (sized = false ->
       data_type_def c = data_type c \/ data_type_def c = "BIT") /\
    (max_length_text (max_length c) = "max"
       <-> exists n, max_length c = Some n /\ n < 0) /\
    (forall n, max_length c = Some n -> 0 <= n ->
       max_length_text (max_length c) = str_int n) /\
    (max_length c = None -> max_length_text (max_length c) = "None").
Proof.
  split; [reflexivity|]. intros name c sized. repeat split.
  - apply data_type_def_sized.
  - intros H. rewrite (data_type_def_unsized c H).
    destruct (String.eqb (data_type c) "bit"); auto.
  - apply max_length_text_max.
  - apply max_length_text_max.
  - intros n -> Hn. unfold max_length_text.
    by destruct (Z.ltb_spec n 0); [lia|].
  - by intros ->.
Qed.

Lemma create_statement_length_clause_witness :
  data_type_def {| data_type := "varchar"; is_nullable := true; max_length := Some (-1) |}
  = "varchar(max)" /\
  data_type_def {| data_type := "binary"; is_nullable := true; max_length := Some 16 |}
  = "binary(16)" /\
  (data_type_def {| data_type := "int"; is_nullable := true; max_length := Some (-1) |}
   = "int" \/
   data_type_def {| data_type := "int"; is_nullable := true; max_length := Some (-1) |}
   = "BIT").
Proof.
  pose proof (create_statement_length_clause "dbo.T" [] None) as [_ H].
  split; [|split].
  - destruct (H "a" {| data_type := "varchar"; is_nullable := true;
                        max_length := Some (-1) |}) as (_ & Hs & _).
    apply Hs. reflexivity.
  - destruct (H "b" {| data_type := "binary"; is_nullable := true;
                        max_length := Some 16 |}) as (_ & Hs & _).
    apply Hs. reflexivity.
  - destruct (H "c" {| data_type := "int"; is_nullable := true;
                        max_length := Some (-1) |}) as (_ & _ & Hu & _).
    apply Hu. reflexivity.
Defined.

(** C8, as amended.  A column whose catalogue type is exactly the lowercase
    [bit] is rendered with the type text [BIT]; a type spelled as bit in any
    other casing is not overridden and keeps the catalogue spelling. *)
Theorem create_statement_bit name c :
  (data_type c = "bit" ->
     data_type_def c = "BIT" /\
     column_definition (name, c)
     = "[" +:+ name +:+ "] BIT " +:+ (if is_nullable c then "" else "NOT NULL")) /\
  (lower (data_type c) = "bit" -> data_type c <> "bit" ->
     data_type_def c = data_type c).
Proof.
  split.
  - intros H. unfold column_definition, data_type_def. simpl. by rewrite H.
  - intros Hl Hne. rewrite data_type_def_unsized.
    + destruct (String.eqb_spec (data_type c) "bit"); [done|reflexivity].
    + apply (one_of_false _ _
               ["char"; "varchar"; "nchar"; "nvarchar"; "varbinary"; "binary"]);
        [|auto].
      simpl. intros H.
      repeat (destruct H as [H | H]; [rewrite <- H in Hl; discriminate Hl|]).
      destruct H.
Qed.

Lemma create_statement_bit_witness :
  data_type_def {| data_type := "bit"; is_nullable := false; max_length := None |}
  = "BIT" /\
  data_type_def {| data_type := "bIT"; is_nullable := false; max_length := None |}
  = "bIT".
Proof.
  split.
  - apply (create_statement_bit "flag"
             {| data_type := "bit"; is_nullable := false; max_length := None |}).
    reflexivity.
  - apply (create_statement_bit "flag"
             {| data_type := "bIT"; is_nullable := false; max_length := None |}).
    + reflexivity.
    + discriminate.
Defined.

(** C8 as stated fails: the catalogue spelling [Bit] is rendered as [Bit],
    not as [BIT]. *)
Lemma create_statement_bit_counterexample :
  lower "Bit" = "bit" /\
  create_statement "dbo.T"
    [("flag", {| data_type := "Bit"; is_nullable := false; max_length := None |})]
    None
  = "CREATE TABLE dbo.T ([flag] Bit NOT NULL)" /\
  data_type_def {| data_type := "Bit"; is_nullable := false; max_length := None |}
  <> "BIT".
Proof. repeat split. discriminate. Qed.

(** ** Ordered dictionaries *)

Section odict_facts.
Context {V : Type}.
Implicit Types (d : list (string * V)) (k : string) (v : V).

Lemma od_get_set_eq k v d : od_get k (od_set k v d) = Some v.
Proof.
  induction d as [|[k' v'] d IH]; simpl.
  - by rewrite String.eqb_refl.
  - destruct (String.eqb_spec k k') as [->|Hne]; simpl.
    + by rewrite String.eqb_refl.
    + by destruct (String.eqb_spec k k').
Qed.

Lemma od_get_set_ne k k' v d : k <> k' -> od_get k' (od_set k v d) = od_get k' d.
Proof.
  intros Hne. induction d as [|[k0 v0] d IH]; simpl.
  - by destruct (String.eqb_spec k' k) as [->|].
  - destruct (String.eqb_spec k k0) as [->|Hk]; simpl.
    + by destruct (String.eqb_spec k' k0) as [->|].
    + by destruct (String.eqb_spec k' k0).
Qed.

Lemma od_get_None k d : od_get k d = None <-> (k ∉ od_keys d).
Proof.
  induction d as [|[k' v'] d IH]; simpl.
  - split; [intros _; apply not_elem_of_nil|done].
  - rewrite not_elem_of_cons.
    destruct (String.eqb_spec k k') as [->|Hne]; [split; [done|tauto]|].
    rewrite IH. tauto.
Qed.

Lemma od_get_Some_key k d : is_Some (od_get k d) <-> (k ∈ od_keys d).
Proof.
  rewrite <- not_eq_None_Some, od_get_None.
  destruct (decide (k ∈ od_keys d)); tauto.
Qed.

Lemma od_keys_set_present k v d :
  is_Some (od_get k d) -> od_keys (od_set k v d) = od_keys d.
Proof.
  induction d as [|[k' v'] d IH]; simpl; [by intros [? ?]|].
  destruct (String.eqb_spec k k') as [->|Hne]; simpl; [done|].
  intros H. by rewrite (IH H).
Qed.

Lemma od_keys_set_absent k v d :
  od_get k d = None -> od_keys (od_set k v d) = (od_keys d ++ [k])%list.
Proof.
  induction d as [|[k' v'] d IH]; simpl; [done|].
  destruct (String.eqb_spec k k') as [->|Hne]; simpl; [done|].
  intros H. by rewrite (IH H).
Qed.

Lemma od_index_Some k d : is_Some (od_index k d) <-> is_Some (od_get k d).
Proof.
  induction d as [|[k' v'] d IH]; simpl; [done|].
  destruct (String.eqb_spec k k'); [split; eauto|].
  rewrite fmap_is_Some. exact IH.
Qed.

(** Assigning to any key leaves the position of every present key alone. *)
Lemma od_index_set k k' v d :
  is_Some (od_get k' d) -> od_index k' (od_set k v d) = od_index k' d.
Proof.
  induction d as [|[k0 v0] d IH]; simpl; [by intros [? ?]|].
  destruct (String.eqb_spec k k0) as [->|Hk]; simpl; [done|].
  destruct (String.eqb_spec k' k0); [done|].
  intros H. by rewrite (IH H).
Qed.

Lemma od_set_wf k v d : od_wf d -> od_wf (od_set k v d).
Proof.
  unfold od_wf. intros Hwf.
  destruct (od_get k d) as [v0|] eqn:E.
  - by rewrite od_keys_set_present by (rewrite E; eauto).
  - rewrite od_keys_set_absent by done.
    apply NoDup_app. split; [done|]. split; [|apply NoDup_singleton].
    intros x Hx Hx'. apply list_elem_of_singleton in Hx' as ->.
    by apply od_get_None in E.
Qed.

Lemma od_set_length_present k v d :
  is_Some (od_get k d) -> length (od_set k v d) = length d.
Proof.
  intros H. apply od_keys_set_present with (v := v) in H.
  unfold od_keys in H. by rewrite <- (length_map fst), H, length_map.
Qed.
End odict_facts.

(** ** [generate_table_definitions] *)

Lemma add_rows_app csv rows rows' defs :
  add_rows csv (rows ++ rows') defs
  = rbind (add_rows csv rows defs) (add_rows csv rows').
Proof.
  revert defs. induction rows as [|r rows IH]; intros defs; simpl; [done|].
  unfold rbind at 1 3. destruct (add_row csv defs r); [apply IH|done].
Qed.

Lemma generate_step n csv :
  generate_table_definitions (Z.of_nat (S n)) csv
  = rbind (generate_table_definitions (Z.of_nat n) csv)
          (fun defs => add_row csv defs n).
Proof.
  unfold generate_table_definitions. rewrite !Nat2Z.id, seq_S, add_rows_app.
  simpl. destruct (add_rows csv (seq 0 n) []); simpl; [|done].
  by destruct (add_row csv a n).
Qed.

(** A run that succeeds on [n] rows succeeded on every shorter prefix. *)
Lemma generate_prefix n m csv defs :
  (m <= n)%nat ->
  generate_table_definitions (Z.of_nat n) csv = Ok defs ->
  exists defs_m, generate_table_definitions (Z.of_nat m) csv = Ok defs_m.
Proof.
  intros Hle. revert defs. induction Hle as [|n Hle IH]; intros defs H; [eauto|].
  rewrite generate_step in H.
  destruct (generate_table_definitions (Z.of_nat n) csv) eqn:E; [|done].
  eapply IH. reflexivity.
Qed.

Lemma add_row_inv csv defs r defs' :
  add_row csv defs r = Ok defs' ->
  exists t col c,
    full_table_name csv r = Ok t /\ row_column_def csv r = Ok (col, c) /\
    defs' = od_set t (od_set col c (defs_get t defs)) defs.
Proof.
  unfold add_row, rbind.
  destruct (full_table_name csv r) as [t|]; [|done].
  destruct (row_column_def csv r) as [[col c]|]; [|done].
  intros [= <-]. by exists t, col, c.
Qed.

Lemma defs_get_set_eq t (td : table_def) (defs : table_defs) :
  defs_get t (od_set t td defs) = td.
Proof. unfold defs_get. by rewrite od_get_set_eq. Qed.

Lemma defs_get_set_ne t t' (td : table_def) (defs : table_defs) :
  t <> t' -> defs_get t' (od_set t td defs) = defs_get t' defs.
Proof. intros H. unfold defs_get. by rewrite od_get_set_ne. Qed.

(** One catalogue row never moves or removes a column that is present. *)
Lemma add_row_index csv defs r defs' t col :
  add_row csv defs r = Ok defs' ->
  is_Some (od_get col (defs_get t defs)) ->
  od_index col (defs_get t defs') = od_index col (defs_get t defs) /\
  is_Some (od_get col (defs_get t defs')).
Proof.
  intros H Hc. apply add_row_inv in H as (t0 & col0 & c0 & _ & _ & ->).
  destruct (decide (t0 = t)) as [->|Hne].
  - rewrite defs_get_set_eq. split; [by apply od_index_set|].
    destruct (decide (col0 = col)) as [->|Hc0].
    + rewrite od_get_set_eq. eauto.
    + by rewrite od_get_set_ne.
  - by rewrite defs_get_set_ne.
Qed.

(** A row for another table or column leaves the definition alone. *)
Lemma add_row_other csv defs r defs' t col :
  add_row csv defs r = Ok defs' ->
  (forall c, ~ (full_table_name csv r = Ok t /\ row_column_def csv r = Ok (col, c))) ->
  od_get col (defs_get t defs') = od_get col (defs_get t defs).
Proof.
  intros H Hother. apply add_row_inv in H as (t0 & col0 & c0 & Ht & Hr & ->).
  destruct (decide (t0 = t)) as [->|Hne]; [|by rewrite defs_get_set_ne].
  rewrite defs_get_set_eq.
  destruct (decide (col0 = col)) as [->|Hc0]; [|by rewrite od_get_set_ne].
  exfalso. by apply (Hother c0).
Qed.

(** Positions are stable from any prefix to any longer prefix. *)
Lemma generate_index_stable n m csv defs_m defs_n t col :
  (m <= n)%nat ->
  generate_table_definitions (Z.of_nat m) csv = Ok defs_m ->
  generate_table_definitions (Z.of_nat n) csv = Ok defs_n ->
  is_Some (od_get col (defs_get t defs_m)) ->
  od_index col (defs_get t defs_n) = od_index col (defs_get t defs_m) /\
  is_Some (od_get col (defs_get t defs_n)).
Proof.
  intros Hle Hm. revert defs_n.
  induction Hle as [|n Hle IH]; intros defs_n Hn Hc.
  - rewrite Hm in Hn. injection Hn as <-. done.
  - rewrite generate_step in Hn.
    destruct (generate_table_definitions (Z.of_nat n) csv) as [d|] eqn:E; [|done].
    simpl in Hn. destruct (IH d eq_refl Hc) as [Hi Hs].
    destruct (add_row_index _ _ _ _ t col Hn Hs) as [Hi' Hs'].
    split; [congruence|done].
Qed.

(** The last row that defines a column decides its definition. *)
Lemma generate_last_wins n m csv defs_m defs_n t col :
  (m <= n)%nat ->
  generate_table_definitions (Z.of_nat m) csv = Ok defs_m ->
  generate_table_definitions (Z.of_nat n) csv = Ok defs_n ->
  (forall k c, (m <= k < n)%nat ->
     ~ (full_table_name csv k = Ok t /\ row_column_def csv k = Ok (col, c))) ->
  od_get col (defs_get t defs_n) = od_get col (defs_get t defs_m).
Proof.
  intros Hle Hm. revert defs_n.
  induction Hle as [|n Hle IH]; intros defs_n Hn Hother.
  - rewrite Hm in Hn. by injection Hn as <-.
  - rewrite generate_step in Hn.
    destruct (generate_table_definitions (Z.of_nat n) csv) as [d|] eqn:E; [|done].
    simpl in Hn. rewrite (add_row_other _ _ _ _ t col Hn).
    + apply IH; [done|]. intros k c Hk. apply Hother. lia.
    + intros c. apply Hother. lia.
Qed.

Lemma add_row_wf csv defs r defs' :
  add_row csv defs r = Ok defs' ->
  od_wf defs -> (forall t, od_wf (defs_get t defs)) ->
  od_wf defs' /\ (forall t, od_wf (defs_get t defs')).
Proof.
  intros H Hwf Hcols. apply add_row_inv in H as (t0 & col0 & c0 & _ & _ & ->).
  split; [by apply od_set_wf|]. intros t.
  destruct (decide (t0 = t)) as [->|Hne].
  - rewrite defs_get_set_eq. by apply od_set_wf.
  - by rewrite defs_get_set_ne.
Qed.

(** What [generate_table_definitions] returns is a dictionary of
    dictionaries: no table and no column of a table occurs twice. *)
Lemma generate_wf n csv defs :
  generate_table_definitions (Z.of_nat n) csv = Ok defs ->
  od_wf defs /\ (forall t, od_wf (defs_get t defs)).
Proof.
  revert defs. induction n as [|n IH]; intros defs H.
  - injection H as <-. split; [apply NoDup_nil_2|]. intros t. apply NoDup_nil_2.
  - rewrite generate_step in H.
    destruct (generate_table_definitions (Z.of_nat n) csv) as [d|] eqn:E; [|done].
    destruct (IH d eq_refl) as [Hw Hc]. by apply (add_row_wf _ _ _ _ H).
Qed.

(** C10.  When two catalogue rows [i < j] name the same fully-qualified table
    and the same column, processing row [j] raises nothing, replaces the
    column's definition by that of row [j], leaves the table's columns (their
    number and their order) as they were, and the column keeps, to the end of
    the run, the position it had after row [i]; it occurs once in the final
    table, with the definition of the last row that names it. *)
Theorem generate_table_definitions_duplicate csv n defs i j t col ci cj :
  (i < j)%nat -> (j < n)%nat ->
  generate_table_definitions (Z.of_nat n) csv = Ok defs ->
  full_table_name csv i = Ok t -> row_column_def csv i = Ok (col, ci) ->
  full_table_name csv j = Ok t -> row_column_def csv j = Ok (col, cj) ->
  exists after_i before_j after_j,
    generate_table_definitions (Z.of_nat (S i)) csv = Ok after_i /\
    generate_table_definitions (Z.of_nat j) csv = Ok before_j /\
    generate_table_definitions (Z.of_nat (S j)) csv = Ok after_j /\
    od_get col (defs_get t after_i) = Some ci /\
    od_get col (defs_get t after_j) = Some cj /\
    od_keys (defs_get t after_j) = od_keys (defs_get t before_j) /\
    length (defs_get t after_j) = length (defs_get t before_j) /\
    od_keys after_j = od_keys before_j /\
    is_Some (od_index col (defs_get t after_i)) /\
    od_index col (defs_get t after_j) = od_index col (defs_get t after_i) /\
    od_index col (defs_get t defs) = od_index col (defs_get t after_i) /\
    NoDup (od_keys (defs_get t defs)) /\
    ((forall k c, (j < k < n)%nat ->
        ~ (full_table_name csv k = Ok t /\ row_column_def csv k = Ok (col, c))) ->
     od_get col (defs_get t defs) = Some cj).
Proof.
  intros Hij Hjn Hgen Hti Hci Htj Hcj.
  destruct (generate_prefix n i csv defs ltac:(lia) Hgen) as (before_i & Hbi).
  destruct (generate_prefix n (S i) csv defs ltac:(lia) Hgen) as (after_i & Hai).
  destruct (generate_prefix n j csv defs ltac:(lia) Hgen) as (before_j & Hbj).
  destruct (generate_prefix n (S j) csv defs ltac:(lia) Hgen) as (after_j & Haj).
  exists after_i, before_j, after_j.
  (* the two steps, spelled out *)
  pose proof Hai as Hsi. rewrite generate_step, Hbi in Hsi. simpl in Hsi.
  pose proof Haj as Hsj. rewrite generate_step, Hbj in Hsj. simpl in Hsj.
  unfold add_row in Hsi, Hsj. rewrite Hti, Hci in Hsi. rewrite Htj, Hcj in Hsj.
  simpl in Hsi, Hsj. injection Hsi as Hsi. injection Hsj as Hsj.
  assert (Hgi : od_get col (defs_get t after_i) = Some ci).
  { rewrite <- Hsi, defs_get_set_eq. apply od_get_set_eq. }
  assert (Hpi : is_Some (od_get col (defs_get t after_i))) by (rewrite Hgi; eauto).
  destruct (generate_index_stable j (S i) csv after_i before_j t col
              ltac:(lia) Hai Hbj Hpi) as [Hidx_j Hpj].
  assert (Htab : is_Some (od_get t before_j)).
  { unfold defs_get in Hpj. destruct (od_get t before_j); [eauto|].
    simpl in Hpj. by destruct Hpj. }
  repeat split; try done.
  - rewrite <- Hsj, defs_get_set_eq. apply od_get_set_eq.
  - rewrite <- Hsj, defs_get_set_eq. by apply od_keys_set_present.
  - rewrite <- Hsj, defs_get_set_eq. by apply od_set_length_present.
  - rewrite <- Hsj. by apply od_keys_set_present.
  - by apply od_index_Some.
  - rewrite <- Hidx_j, <- Hsj, defs_get_set_eq. by apply od_index_set.
  - by destruct (generate_index_stable n (S i) csv after_i defs t col
                   ltac:(lia) Hai Hgen Hpi).
  - destruct (generate_wf n csv defs Hgen) as [_ Hw]. exact (Hw t).
  - intros Hlast.
    rewrite (generate_last_wins n (S j) csv after_j defs t col ltac:(lia) Haj Hgen).
    + rewrite <- Hsj, defs_get_set_eq. apply od_get_set_eq.
    + intros k c Hk. apply Hlast. lia.
Qed.

Lemma generate_table_definitions_duplicate_witness :
  let csv : gmap string (list string) :=
    list_to_map
      [("TABLE_SCHEMA", ["dbo"; "dbo"; "dbo"]);
       ("TABLE_NAME", ["Users"; "Users"; "Users"]);
       ("COLUMN_NAME", ["Id"; "Name"; "Id"]);
       ("IS_NULLABLE", ["NO"; "YES"; "YES"]);
       ("DATA_TYPE", ["int"; "varchar"; "bigint"]);
       ("CHARACTER_MAXIMUM_LENGTH", ["NULL"; "10"; "-1"])] in
  exists defs,
    generate_table_definitions 3 csv = Ok defs /\
    od_get "Id" (defs_get "dbo.Users" defs)
    = Some {| data_type := "bigint"; is_nullable := true; max_length := Some (-1) |} /\
    od_index "Id" (defs_get "dbo.Users" defs) = Some 0%nat /\
    length (defs_get "dbo.Users" defs) = 2%nat.
Proof.
  intros csv.
  destruct (generate_table_definitions 3 csv) as [defs|] eqn:Hgen;
    [|exfalso; vm_compute in Hgen; discriminate Hgen].
  exists defs.
  destruct (generate_table_definitions_duplicate csv 3 defs 0 2 "dbo.Users" "Id"
              {| data_type := "int"; is_nullable := false; max_length := None |}
              {| data_type := "bigint"; is_nullable := true; max_length := Some (-1) |})
    as (after_i & before_j & after_j & Hai & Hbj & Haj & _ & _ & _ & _ & _ & _ & _
        & Hidx & _ & Hlast);
    [lia | lia | exact Hgen | reflexivity | reflexivity | reflexivity | reflexivity |].
  split; [reflexivity|]. split; [|split].
  - apply Hlast. intros k c Hk. lia.
  - rewrite Hidx. vm_compute in Hai. injection Hai as <-. reflexivity.
  - vm_compute in Hgen. injection Hgen as <-. reflexivity.
Defined.

(** ** Effects of the generators *)

Lemma quiet_ret {A} (a : A) : quiet (ret a).
Proof. by intros w. Qed.

Lemma quiet_raise {A} e : quiet (@raise A e).
Proof. by intros w. Qed.

Lemma quiet_draw : quiet draw.
Proof. by intros w. Qed.

Lemma quiet_bind {A B} (m : M A) (k : A -> M B) :
  quiet m -> (forall a, quiet (k a)) -> quiet (bind m k).
Proof.
  intros Hm Hk w. unfold bind. specialize (Hm w).
  destruct (m w) as [a w'|e w']; simpl in *; [|done].
  destruct (Hk a w') as (-> & -> & ->). done.
Qed.

Create HintDb quiet.
#[local] Hint Resolve quiet_ret quiet_raise quiet_draw : quiet.
#[local] Hint Extern 2 (quiet (bind _ _)) => apply quiet_bind; [|intros] : quiet.
#[local] Hint Extern 2 (quiet (if ?b then _ else _)) => destruct b : quiet.

Lemma quiet_randbelow n : quiet (randbelow n).
Proof. unfold randbelow. auto with quiet. Qed.

Lemma quiet_randbits k : quiet (randbits k).
Proof. unfold randbits. auto with quiet. Qed.

#[local] Hint Resolve quiet_randbelow quiet_randbits : quiet.

Lemma quiet_random_chars n : quiet (random_chars n).
Proof.
  induction n as [|n IH]; simpl; [auto with quiet|].
  unfold choice_alphabet. auto 10 with quiet.
Qed.

Lemma quiet_date_text : quiet date_text.
Proof. unfold date_text. auto 10 with quiet. Qed.

Lemma quiet_time_text : quiet time_text.
Proof. unfold time_text. auto 10 with quiet. Qed.

Lemma quiet_uuid4_str : quiet uuid4_str.
Proof. unfold uuid4_str. auto with quiet. Qed.

Lemma quiet_null_draw np : quiet (null_draw np).
Proof. unfold null_draw, uniform01. destruct np; auto 10 with quiet. Qed.

#[local] Hint Resolve quiet_random_chars quiet_date_text quiet_time_text
  quiet_uuid4_str quiet_null_draw : quiet.

Lemma quiet_random_value dt ss bs im np : quiet (random_value dt ss bs im np).
Proof.
  unfold random_value. apply quiet_bind; [auto with quiet|].
  intros [|]; [auto with quiet|].
  repeat match goal with
         | |- quiet (if ?b then _ else _) => destruct b; [auto 10 with quiet|]
         end.
  auto with quiet.
Qed.

Lemma quiet_insert_values cols ss bs im np vals :
  quiet (insert_values cols ss bs im np vals).
Proof.
  revert vals. induction cols as [|[c cd] cols IH]; intros vals; simpl.
  - auto with quiet.
  - apply quiet_bind; [apply quiet_random_value|]. intros v. apply IH.
Qed.

Lemma quiet_insert_statement t def ss bs im np :
  quiet (insert_statement t def ss bs im np).
Proof.
  unfold insert_statement.
  apply quiet_bind; [apply quiet_insert_values|auto with quiet].
Qed.

(** Reading the key columns touches nothing, whatever it yields. *)
Lemma pk_value_world cols vals w : final_world (pk_value cols vals w) = w.
Proof.
  revert w. induction cols as [|c cols IH]; intros w; simpl; [done|].
  destruct (od_get c vals); [|done].
  unfold bind. specialize (IH w).
  destruct (pk_value cols vals w); simpl in *; by subst.
Qed.

Lemma pk_value_done cols vals w v w' :
  pk_value cols vals w = Done v w' ->
  w' = w /\ map (fun c => od_get c vals) cols = map Some v.
Proof.
  intros H. pose proof (pk_value_world cols vals w) as Hw.
  rewrite H in Hw. simpl in Hw. split; [done|]. subst w'.
  revert v H. induction cols as [|c cols IH]; intros v H; simpl in *.
  - by injection H as <-.
  - destruct (od_get c vals) as [x|]; [|done].
    unfold bind in H. destruct (pk_value cols vals w) as [vs w1|] eqn:E; [|done].
    injection H as <- _. simpl. f_equal. apply IH.
    pose proof (pk_value_world cols vals w) as Hw. rewrite E in Hw.
    simpl in Hw. by subst.
Qed.

(** ** The row loop *)

Section row_loop.
Variables (t : string) (def : table_def) (ss bs im : Z) (np : Q).
Variable pks : gmap string (option (list string)).

Lemma no_keys (pk_set : gset (list string)) (cols : list string) :
  exists keys : list (list string),
    map (key_of cols) [] = map (map Some) keys /\
    NoDup keys /\ (forall key, key ∈ keys -> key ∉ pk_set).
Proof.
  exists []. repeat split; [apply NoDup_nil_2|].
  intros key Hk. by apply elem_of_nil in Hk.
Qed.

(* What is left of a conjunct once the induction hypothesis settles it for
   the remaining positions. *)
Local Ltac loop_tail :=
  try (intros; f_equal; auto; fail);
  try (constructor; auto; fail).

Lemma row_loop_spec positions pk_set w :
  let r := row_loop positions t def ss bs im np pks pk_set w in
  exists evs k,
    written (final_world r) = (written w ++ evs)%list /\
    body_runs (final_world r) = (body_runs w ++ replicate k t)%list /\
    tape (final_world r) = tape w /\
    (k <= length positions)%nat /\
    (error_of r = None -> k = length positions) /\
    (length evs <= k)%nat /\
    Forall (generated_row t def ss bs im np) evs /\
    (pks !! t = Some None -> evs = []) /\
    (pks !! t = None -> error_of r = None -> length evs = length positions) /\
    (forall cols, pks !! t = Some (Some cols) ->
       exists keys, map (key_of cols) evs = map (map Some) keys /\
                    NoDup keys /\ (forall key, key ∈ keys -> key ∉ pk_set)).
Proof.
  revert pk_set w. induction positions as [|p rest IH]; intros pk_set w r.
  { exists [], 0%nat. subst r. simpl. rewrite !app_nil_r.
    repeat split; try done; try lia. intros cols _. apply (no_keys _ cols). }
  pose proof (eq_refl r) as Hr. unfold r at 2 in Hr. clearbody r.
  simpl in Hr. unfold bind at 1, enter_body at 1 in Hr.
  set (w1 := {| tape := tape w; pos := pos w; written := written w;
                body_runs := (body_runs w ++ [t])%list |}) in Hr.
  unfold bind at 1 in Hr.
  destruct (quiet_insert_statement t def ss bs im np w1) as (Qw & Qb & Qt).
  destruct (insert_statement t def ss bs im np w1) as [row w2|e w2] eqn:Eins;
    simpl in Qw, Qb, Qt.
  2:{ exists [], 1%nat. subst r. simpl. rewrite app_nil_r, Qw, Qb, Qt.
      repeat split; try done; try lia. intros cols _. apply (no_keys _ cols). }
  assert (Hgen : generated_row t def ss bs im np
                   {| ev_table := t; ev_values := row.1; ev_stmt := row.2 |}).
  { split; [done|]. exists w1, w2. simpl. by destruct row. }
  destruct (pks !! t) as [[cols|]|] eqn:Hpk.
  - (* a declared key *)
    unfold bind at 1 in Hr.
    pose proof (pk_value_world cols row.1 w2) as Hpw.
    destruct (pk_value cols row.1 w2) as [v w3|e w3] eqn:Epk; simpl in Hpw; subst w3.
    2:{ exists [], 1%nat. subst r. simpl. rewrite app_nil_r, Qw, Qb, Qt.
        repeat split; try done; try lia. intros cols' _. apply (no_keys _ cols'). }
    apply pk_value_done in Epk as [_ Hkey].
    destruct (decide (v ∈ pk_set)) as [Hin|Hnin].
    + destruct (IH pk_set w2)
        as (evs & k & Hw & Hb & Ht & Hk & Hdone & Hlen & Hall & HN & HU & HK).
      rewrite <- Hr in *.
      exists evs, (S k). rewrite Hw, Hb, Ht, Qw, Qb, Qt. simpl.
      rewrite <- app_assoc. repeat split; try done; try lia; loop_tail.
    + unfold bind at 1, emit at 1 in Hr.
      match type of Hr with
      | _ = row_loop _ _ _ _ _ _ _ _ _ ?w' => set (w4 := w') in Hr
      end.
      destruct (IH ({[v]} ∪ pk_set) w4)
        as (evs & k & Hw & Hb & Ht & Hk & Hdone & Hlen & Hall & HN & HU & HK).
      rewrite <- Hr in *.
      eexists (_ :: evs), (S k). rewrite Hw, Hb, Ht. simpl. rewrite Qw, Qb, Qt.
      rewrite <- !app_assoc. simpl.
      repeat split; try done; try lia; loop_tail.
      intros cols' [= <-]. destruct (HK cols eq_refl) as (keys & Hm & Hnd & Hfresh).
      exists (v :: keys). simpl. rewrite Hm. unfold key_of at 1. simpl.
      rewrite Hkey. repeat split.
      * apply NoDup_cons. split; [|done]. intros Hv.
        apply (Hfresh v Hv). set_solver.
      * intros key [->|Hk']%elem_of_cons; [done|].
        intros Hps. apply (Hfresh key Hk'). set_solver.
  - (* the key is the absence marker *)
    destruct (IH pk_set w2)
      as (evs & k & Hw & Hb & Ht & Hk & Hdone & Hlen & Hall & HN & HU & HK).
    rewrite <- Hr in *.
    exists evs, (S k). rewrite Hw, Hb, Ht, Qw, Qb, Qt. simpl.
    rewrite <- app_assoc. repeat split; try done; try lia; loop_tail.
  - (* no entry *)
    unfold bind at 1, emit at 1 in Hr.
    match type of Hr with
    | _ = row_loop _ _ _ _ _ _ _ _ _ ?w' => set (w4 := w') in Hr
    end.
    destruct (IH pk_set w4)
      as (evs & k & Hw & Hb & Ht & Hk & Hdone & Hlen & Hall & HN & HU & HK).
    rewrite <- Hr in *.
    eexists (_ :: evs), (S k). rewrite Hw, Hb, Ht. simpl. rewrite Qw, Qb, Qt.
    rewrite <- !app_assoc. simpl.
    repeat split; try done; try lia; loop_tail.
Qed.
End row_loop.

(** ** The loop over the tables *)

Section table_loop.
Variables (nrows : gmap string Z) (ss bs im : Z) (np : Q) (cap : option Z).
Variable pks : gmap string (option (list string)).

Lemma inserts_of_app t w w' evs :
  written w' = (written w ++ evs)%list ->
  inserts_of t w' = (inserts_of t w ++ filter (fun ev => ev_table ev = t) evs)%list.
Proof. intros H. unfold inserts_of. by rewrite H, filter_app. Qed.

Lemma iterations_of_app t w w' names :
  body_runs w' = (body_runs w ++ names)%list ->
  iterations_of t w'
  = (iterations_of t w + length (filter (fun name => name = t) names))%nat.
Proof. intros H. unfold iterations_of. by rewrite H, filter_app, length_app. Qed.

Lemma filter_replicate_eq (t : string) k :
  filter (fun name => name = t) (replicate k t) = replicate k t.
Proof.
  induction k as [|k IH]; simpl; [done|].
  rewrite filter_cons_True by done. by rewrite IH.
Qed.

Lemma filter_replicate_ne (t t' : string) k :
  t' <> t -> filter (fun name => name = t) (replicate k t') = [].
Proof.
  intros Hne. induction k as [|k IH]; simpl; [done|].
  by rewrite filter_cons_False.
Qed.

Lemma filter_own_rows t def evs :
  Forall (generated_row t def ss bs im np) evs ->
  filter (fun ev => ev_table ev = t) evs = evs.
Proof.
  induction 1 as [|ev evs [Ht _] _ IH]; [done|].
  rewrite filter_cons_True by done. by rewrite IH.
Qed.

Lemma filter_other_rows t t' def evs :
  t' <> t ->
  Forall (generated_row t' def ss bs im np) evs ->
  filter (fun ev => ev_table ev = t) evs = [].
Proof.
  intros Hne. induction 1 as [|ev evs [Ht _] _ IH]; [done|].
  rewrite filter_cons_False by congruence. exact IH.
Qed.

(** The row loop of one table shows in no other table's rows or counts. *)
Lemma row_loop_other t t' def positions pk_set w :
  t' <> t ->
  let r := row_loop positions t' def ss bs im np pks pk_set w in
  inserts_of t (final_world r) = inserts_of t w /\
  iterations_of t (final_world r) = iterations_of t w.
Proof.
  intros Hne r.
  destruct (row_loop_spec t' def ss bs im np pks positions pk_set w)
    as (evs & k & Hw & Hb & _ & _ & _ & _ & Hall & _).
  fold r in Hw, Hb. split.
  - rewrite (inserts_of_app t w _ evs Hw), (filter_other_rows t t' def) by done.
    apply app_nil_r.
  - rewrite (iterations_of_app t w _ _ Hb), filter_replicate_ne by done.
    simpl. lia.
Qed.

Lemma rows_per_table_world t w :
  final_world (rows_per_table nrows cap t w) = w.
Proof. unfold rows_per_table. by destruct (nrows !! t). Qed.

Lemma table_loop_absent tables t w :
  t ∉ od_keys tables ->
  let r := table_loop tables nrows ss bs im np cap pks w in
  inserts_of t (final_world r) = inserts_of t w /\
  iterations_of t (final_world r) = iterations_of t w.
Proof.
  revert w. induction tables as [|[t0 d0] tables IH]; intros w Hnot; [done|].
  simpl in Hnot. apply not_elem_of_cons in Hnot as [Hne Hnot].
  simpl. unfold bind at 1 3.
  destruct (nrows !! t0) as [requested|] eqn:En; unfold rows_per_table;
    rewrite En; [|done].
  unfold ret at 1 2. unfold bind.
  pose proof (row_loop_other t t0 d0
                (range (target_rows cap requested)) ∅ w ltac:(congruence)) as Hrow.
  unfold target_rows in Hrow. simpl in Hrow.
  destruct (row_loop _ t0 d0 ss bs im np pks ∅ w) as [[] w'|e w'];
    simpl in Hrow; [|done].
  destruct (IH w' Hnot) as [Hi Hb]. destruct Hrow as [Hi' Hb'].
  split; congruence.
Qed.

(** Where the rows of one table come from: either the run failed before
    its turn, or they are those of its own row loop, started on an empty
    key set. *)
Lemma table_loop_spec tables t def w :
  od_wf tables ->
  od_get t tables = Some def ->
  let r := table_loop tables nrows ss bs im np cap pks w in
  (error_of r <> None /\
   inserts_of t (final_world r) = inserts_of t w /\
   iterations_of t (final_world r) = iterations_of t w) \/
  (exists w1 requested,
     nrows !! t = Some requested /\
     inserts_of t w1 = inserts_of t w /\
     iterations_of t w1 = iterations_of t w /\
     let r1 := row_loop (range (target_rows cap requested)) t def ss bs im np
                 pks ∅ w1 in
     inserts_of t (final_world r) = inserts_of t (final_world r1) /\
     iterations_of t (final_world r) = iterations_of t (final_world r1) /\
     (error_of r = None -> error_of r1 = None)).
Proof.
  revert w. induction tables as [|[t0 d0] tables IH]; intros w Hwf Hget r; [done|].
  apply NoDup_cons in Hwf as [Hfresh Hwf]. simpl in Hget.
  pose proof (eq_refl r) as Hr. unfold r at 2 in Hr. clearbody r.
  simpl in Hr. unfold bind at 1, rows_per_table in Hr.
  destruct (nrows !! t0) as [requested|] eqn:En; [|left; by subst r].
  unfold ret at 1 in Hr. fold (target_rows cap requested) in Hr.
  unfold bind in Hr.
  remember (row_loop (range (target_rows cap requested)) t0 d0 ss bs im np
              pks ∅ w) as r0 eqn:Hr0.
  destruct (String.eqb_spec t t0) as [->|Hne].
  - (* the table's own turn *)
    injection Hget as ->. right. exists w, requested.
    split; [done|]. split; [done|]. split; [done|].
    cbn zeta. rewrite <- Hr0.
    destruct r0 as [[] w'|e w']; [|by subst r].
    destruct (table_loop_absent tables t0 w' Hfresh) as [Hi Hb].
    rewrite <- Hr in Hi, Hb. done.
  - pose proof (row_loop_other t t0 d0
                  (range (target_rows cap requested)) ∅ w ltac:(congruence))
      as Hrow.
    cbn zeta in Hrow. rewrite <- Hr0 in Hrow. destruct Hrow as [Hi Hb].
    destruct r0 as [[] w'|e w']; [|left; by subst r].
    simpl in Hi, Hb.
    destruct (IH w' Hwf Hget)
      as [(He & Hi' & Hb')|(w1 & rq & Hn & Hi' & Hb' & Hr1)];
      rewrite <- Hr in *.
    + left. repeat split; [done|congruence..].
    + right. exists w1, rq. repeat split; try done; try congruence; apply Hr1.
Qed.
End table_loop.

(** ** Whole runs *)

Lemma length_range n : length (range n) = Z.to_nat n.
Proof. unfold range. by rewrite length_map, length_seq. Qed.

Lemma map_Some_inj (key key' : list string) :
  map Some key' = map Some key -> key' = key.
Proof.
  revert key. induction key' as [|x key' IH]; intros [|y key] H;
    simpl in H; try done.
  injection H as -> H. f_equal. by apply IH.
Qed.

Lemma NoDup_map_Some (keys : list (list string)) :
  NoDup keys -> NoDup (map (map Some) keys).
Proof.
  induction 1 as [|key keys Hnot _ IH]; simpl; constructor; [|done].
  intros Hin. apply Hnot.
  apply list_elem_of_In, in_map_iff in Hin as (key' & Heq & Hin).
  apply map_Some_inj in Heq as ->. by apply list_elem_of_In.
Qed.

Section runs.
Variables (np : Q) (nrows : gmap string Z) (ss bs im : Z) (cap : option Z).
Variable pks : gmap string (option (list string)).

(** No line is ever written for a table whose key is the absence marker,
    and every line belongs to a table that was looped over. *)
Lemma table_loop_marked tables w :
  let r := table_loop tables nrows ss bs im np cap pks w in
  exists evs,
    written (final_world r) = (written w ++ evs)%list /\
    Forall (fun ev => pks !! ev_table ev <> Some None) evs.
Proof.
  revert w. induction tables as [|[t0 d0] tables IH]; intros w r.
  { exists []. subst r. simpl. by rewrite app_nil_r. }
  pose proof (eq_refl r) as Hr. unfold r at 2 in Hr. clearbody r.
  simpl in Hr. unfold bind at 1, rows_per_table in Hr.
  destruct (nrows !! t0) as [requested|] eqn:En.
  2:{ exists []. subst r. simpl. by rewrite app_nil_r. }
  unfold ret at 1 in Hr. fold (target_rows cap requested) in Hr.
  unfold bind in Hr.
  destruct (row_loop_spec t0 d0 ss bs im np pks
              (range (target_rows cap requested)) ∅ w)
    as (evs & k & Hw & _ & _ & _ & _ & _ & Hall & Hnone & _).
  assert (Hevs : Forall (fun ev => pks !! ev_table ev <> Some None) evs).
  { destruct (decide (pks !! t0 = Some None)) as [Hm|Hm].
    - rewrite (Hnone Hm). constructor.
    - eapply Forall_impl; [exact Hall|]. intros ev [-> _]. exact Hm. }
  destruct (row_loop _ t0 d0 ss bs im np pks ∅ w) as [[] w'|e w'];
    simpl in Hw.
  - destruct (IH w') as (evs' & Hw' & Hall'). rewrite <- Hr in *.
    exists (evs ++ evs')%list. rewrite Hw', Hw, app_assoc.
    split; [done|]. by apply Forall_app.
  - exists evs. subst r. done.
Qed.

(** The rows and the loop count of one table in a run from scratch. *)
Lemma stream_table_rows defs t def tape :
  od_wf defs ->
  od_get t defs = Some def ->
  let r := stream_insert_statements defs np nrows ss bs im cap pks
             (initial_world tape) in
  let evs := inserts_of t (final_world r) in
  let k := iterations_of t (final_world r) in
  Forall (generated_row t def ss bs im np) evs /\
  (length evs <= k)%nat /\
  (forall cols, pks !! t = Some (Some cols) ->
     exists keys, map (key_of cols) evs = map (map Some) keys /\ NoDup keys) /\
  (forall requested, nrows !! t = Some requested ->
     (k <= Z.to_nat (target_rows cap requested))%nat /\
     (error_of r = None ->
        k = Z.to_nat (target_rows cap requested) /\
        (pks !! t = None -> length evs = Z.to_nat (target_rows cap requested)))).
Proof.
  intros Hwf Hget. cbv zeta. unfold stream_insert_statements.
  pose proof (table_loop_spec nrows ss bs im np cap pks defs t def
                (initial_world tape) Hwf Hget) as Hspec.
  cbv zeta in Hspec.
  set (r := table_loop defs nrows ss bs im np cap pks (initial_world tape)) in *.
  destruct Hspec as [(He & Hi & Hb)|(w1 & rq & Hn & Hi1 & Hb1 & Hr1)].
  - rewrite Hi, Hb. cbn. repeat split; try done; try lia.
    intros cols _. exists []. split; [done|apply NoDup_nil_2].
  - cbn zeta in Hr1. destruct Hr1 as (Hi & Hb & Hdone).
    destruct (row_loop_spec t def ss bs im np pks
                (range (target_rows cap rq)) ∅ w1)
      as (evs & k & Hw & Hbr & _ & Hk & Hkd & Hlen & Hall & _ & Hfull & Hkeys).
    rewrite length_range in *.
    assert (Hevs : inserts_of t (final_world r) = evs).
    { rewrite Hi, (inserts_of_app t w1 _ evs Hw), Hi1.
      by rewrite (filter_own_rows ss bs im np t def). }
    assert (Hruns : iterations_of t (final_world r) = k).
    { rewrite Hb, (iterations_of_app t w1 _ _ Hbr), Hb1.
      by rewrite filter_replicate_eq, length_replicate. }
    rewrite Hevs, Hruns. split; [done|]. split; [done|]. split.
    { intros cols Hc. destruct (Hkeys cols Hc) as (keys & Hm & Hnd & _). eauto. }
    intros requested Hrq. rewrite Hn in Hrq. injection Hrq as <-.
    split; [done|]. intros He. split; [by apply Hkd, Hdone|].
    intros Hp. by apply Hfull; [|apply Hdone].
Qed.

Lemma stream_absent_table defs t tape :
  od_get t defs = None ->
  let r := stream_insert_statements defs np nrows ss bs im cap pks
             (initial_world tape) in
  inserts_of t (final_world r) = [] /\ iterations_of t (final_world r) = 0%nat.
Proof.
  intros Hget. apply od_get_None in Hget.
  exact (table_loop_absent nrows ss bs im np cap pks defs t (initial_world tape) Hget).
Qed.
End runs.

(** ** Claims about [stream_insert_statements] *)

(** C1.  For every table with a declared primary key (a list of column names
    in the primary-key map), the primary-key tuples of the INSERT statements
    emitted for that table are pairwise distinct, and every such tuple is
    complete, whatever the random source yields and whether or not the run
    ends in an error. *)
Theorem primary_key_tuples_distinct defs np nrows ss bs im cap
    (pks : gmap string (option (list string))) tape t cols :
  od_wf defs ->
  pks !! t = Some (Some cols) ->
  let w := final_world (stream_insert_statements defs np nrows ss bs im cap pks
                          (initial_world tape)) in
  NoDup (map (key_of cols) (inserts_of t w)) /\
  Forall (fun ev => Forall is_Some (key_of cols ev)) (inserts_of t w).
Proof.
  intros Hwf Hpk w. subst w.
  destruct (od_get t defs) as [def|] eqn:Hget.
  - destruct (stream_table_rows np nrows ss bs im cap pks defs t def tape Hwf Hget)
      as (_ & _ & Hkeys & _).
    destruct (Hkeys cols Hpk) as (keys & Hm & Hnd). split.
    + rewrite Hm. by apply NoDup_map_Some.
    + apply Forall_map with (f := key_of cols) (P := Forall is_Some).
      change (Forall (Forall is_Some)
                (map (key_of cols)
                   (inserts_of t (final_world
                      (stream_insert_statements defs np nrows ss bs im cap pks
                         (initial_world tape)))))).
      rewrite Hm. clear. induction keys as [|key keys IH]; constructor; [|done].
      clear. induction key; constructor; eauto.
  - destruct (stream_absent_table np nrows ss bs im cap pks defs t tape Hget)
      as [-> _].
    split; constructor.
Qed.

Lemma primary_key_tuples_distinct_witness :
  let w := final_world
             (stream_insert_statements [("dbo.T", flag_table)] (1 # 5)
                {[ "dbo.T" := 5 ]} 20 20 36000 (Some 1000)
                {[ "dbo.T" := Some ["b"] ]} (initial_world counting_tape)) in
  NoDup (map (key_of ["b"]) (inserts_of "dbo.T" w)) /\
  Forall (fun ev => Forall is_Some (key_of ["b"] ev)) (inserts_of "dbo.T" w).
Proof.
  apply (primary_key_tuples_distinct [("dbo.T", flag_table)] (1 # 5)
           {[ "dbo.T" := 5 ]} 20 20 36000 (Some 1000)
           {[ "dbo.T" := Some ["b"] ]} counting_tape "dbo.T" ["b"]).
  - apply (bool_decide_unpack _). vm_compute. reflexivity.
  - vm_compute. reflexivity.
Defined.




(** C9.  A table whose entry in the primary-key map is the absence marker
    gets no INSERT statement, in every run; and the skip is confined to that
    table: in a run that raises no error, every table without an entry in the
    primary-key map still gets its full number of statements. *)
Theorem absent_key_skips_table defs np nrows ss bs im cap
    (pks : gmap string (option (list string))) tape t :
  pks !! t = Some None ->
  let r := stream_insert_statements defs np nrows ss bs im cap pks
             (initial_world tape) in
  inserts_of t (final_world r) = [] /\
  (forall t' def' requested,
     od_wf defs -> od_get t' defs = Some def' ->
     pks !! t' = None -> nrows !! t' = Some requested ->
     error_of r = None ->
     length (inserts_of t' (final_world r)) = Z.to_nat (target_rows cap requested)).
Proof.
  intros Hpk r. split.
  - destruct (table_loop_marked np nrows ss bs im cap pks defs (initial_world tape))
      as (evs & Hw & Hall).
    fold (stream_insert_statements defs np nrows ss bs im cap pks
            (initial_world tape)) in Hw. fold r in Hw.
    unfold inserts_of. rewrite Hw. simpl. clear Hw.
    induction Hall as [|ev evs Hev _ IH]; [done|].
    rewrite filter_cons_False; [exact IH|]. intros Heq. by rewrite Heq in Hev.
  - intros t' def' requested Hwf Hget Hp Hrq He.
    destruct (stream_table_rows np nrows ss bs im cap pks defs t' def' tape Hwf Hget)
      as (_ & _ & _ & Hcount).
    destruct (Hcount requested Hrq) as [_ Hdone]. by apply Hdone.
Qed.

Lemma absent_key_skips_table_witness :
  let r := stream_insert_statements
             [("dbo.A", flag_table); ("dbo.B", id_table)] (1 # 5)
             {[ "dbo.A" := 3; "dbo.B" := 4 ]} 20 20 36000 (Some 1000)
             {[ "dbo.A" := None ]} (initial_world counting_tape) in
  inserts_of "dbo.A" (final_world r) = [] /\
  length (inserts_of "dbo.B" (final_world r)) = 4%nat.
Proof.
  intros r.
  destruct (absent_key_skips_table
              [("dbo.A", flag_table); ("dbo.B", id_table)] (1 # 5)
              {[ "dbo.A" := 3; "dbo.B" := 4 ]} 20 20 36000 (Some 1000)
              {[ "dbo.A" := None ]} counting_tape "dbo.A") as [Hnone Hother].
  - vm_compute. reflexivity.
  - split; [exact Hnone|].
    apply (Hother "dbo.B" id_table 4).
    + apply (bool_decide_unpack _). vm_compute. reflexivity.
    + reflexivity.
    + vm_compute. reflexivity.
    + vm_compute. reflexivity.
    + vm_compute. reflexivity.
Defined.

(** ** A key domain smaller than the requested row count *)

Lemma flag_table_row t ss bs im np w :
  exists b w',
    insert_statement t flag_table ss bs im np w
    = Done ([("b", str_int b)],
            "INSERT INTO " +:+ t +:+ " VALUES("
            +:+ String.concat "," [str_int b] +:+ ")") w' /\
    (b = 0 \/ b = 1).
Proof.
  exists (tape w (pos w) mod 2), {| tape := tape w; pos := S (pos w);
                                    written := written w;
                                    body_runs := body_runs w |}.
  split; [reflexivity|].
  pose proof (Z.mod_pos_bound (tape w (pos w)) 2 ltac:(lia)). lia.
Qed.

(** A row loop whose rows always generate and always carry the key columns
    runs to its end. *)
Lemma row_loop_total t def ss bs im np
    (pks : gmap string (option (list string))) :
  (forall w, exists row w',
      insert_statement t def ss bs im np w = Done row w' /\
      forall cols, pks !! t = Some (Some cols) ->
                   exists v, pk_value cols row.1 w' = Done v w') ->
  forall positions pk_set w,
    error_of (row_loop positions t def ss bs im np pks pk_set w) = None.
Proof.
  intros Hrow positions. induction positions as [|p rest IH]; intros pk_set w;
    [done|].
  simpl. unfold bind at 1, enter_body at 1. unfold bind at 1.
  match goal with
  | |- context [insert_statement t def ss bs im np ?w1] =>
      destruct (Hrow w1) as (row & w2 & -> & Hkey)
  end.
  destruct (pks !! t) as [[cols|]|]; [| apply IH |].
  - unfold bind at 1. destruct (Hkey cols eq_refl) as (v & ->).
    destruct (decide (v ∈ pk_set)); [apply IH|].
    unfold bind, emit. apply IH.
  - unfold bind, emit. apply IH.
Qed.

(** C3.  The input the claim has in mind: one table whose primary key is a
    single [bit] column, so that only two key tuples exist, with 100 rows
    requested.  Whatever the random source yields, the run ends without an
    error after exactly 100 executions of the loop body, and at most two
    INSERT statements are emitted: a row whose key was seen is dropped and
    the loop moves on to the next position instead of generating the row
    again. *)
Theorem small_key_domain_run tape :
  let r := stream_insert_statements [("dbo.T", flag_table)] (1 # 5)
             {[ "dbo.T" := 100 ]} 20 20 36000 (Some 1000)
             {[ "dbo.T" := Some ["b"] ]} (initial_world tape) in
  error_of r = None /\
  iterations_of "dbo.T" (final_world r) = 100%nat /\
  (length (inserts_of "dbo.T" (final_world r)) <= 2)%nat.
Proof.
  intros r.
  assert (Hpk : ({[ "dbo.T" := Some ["b"] ]} : gmap string (option (list string)))
                  !! "dbo.T" = Some (Some ["b"])) by apply lookup_singleton_eq.
  assert (Hrq : ({[ "dbo.T" := 100 ]} : gmap string Z) !! "dbo.T" = Some 100)
    by apply lookup_singleton_eq.
  assert (Hwf : od_wf [("dbo.T", flag_table)]).
  { apply NoDup_singleton. }
  assert (Hdone : error_of r = None).
  { subst r. unfold stream_insert_statements. simpl table_loop.
    unfold bind at 1, rows_per_table. rewrite Hrq. unfold ret at 1, bind.
    match goal with
    | |- context [row_loop ?ps ?t ?d ?a ?b ?c ?p ?k ?s ?w] =>
        pose proof (row_loop_total t d a b c p k) as Htot;
        specialize (fun H => Htot H ps s w)
    end.
    match type of Htot with
    | ?P -> _ => assert (Hrows : P)
    end.
    { intros w. destruct (flag_table_row "dbo.T" 20 20 36000 (1 # 5) w)
        as (b & w' & -> & _).
      eexists _, w'. split; [reflexivity|].
      intros cols. rewrite Hpk. intros [= <-]. eexists. reflexivity. }
    specialize (Htot Hrows).
    destruct (row_loop _ _ _ _ _ _ _ _ _ _) as [[] w'|e w']; [done|].
    discriminate Htot. }
  destruct (stream_table_rows (1 # 5) {[ "dbo.T" := 100 ]} 20 20 36000 (Some 1000)
              {[ "dbo.T" := Some ["b"] ]} [("dbo.T", flag_table)] "dbo.T"
              flag_table tape Hwf eq_refl)
    as (Hall & _ & Hkeys & Hcount).
  fold r in Hall, Hkeys, Hcount.
  destruct (Hcount 100 Hrq) as [_ Hk]. destruct (Hk Hdone) as [Hiter _].
  split; [done|]. split; [exact Hiter|].
  destruct (Hkeys ["b"] Hpk) as (keys & Hm & Hnd).
  apply NoDup_map_Some in Hnd. rewrite <- Hm in Hnd.
  rewrite <- (length_map (key_of ["b"])).
  apply NoDup_ListNoDup in Hnd.
  apply (NoDup_incl_length (l' := [[Some "0"]; [Some "1"]]) Hnd).
  intros key Hin. apply in_map_iff in Hin as (ev & <- & Hev).
  apply list_elem_of_In in Hev.
  pose proof (proj1 (Forall_forall _ _) Hall ev Hev) as [_ (wa & wb & Hrow)].
  destruct (flag_table_row "dbo.T" 20 20 36000 (1 # 5) wa) as (b & w' & Hb & Hbit).
  rewrite Hb in Hrow. injection Hrow as Hvals _ _.
  unfold key_of. rewrite <- Hvals.
  destruct Hbit as [-> | ->]; simpl; auto.
Qed.

(** * Further properties of the code *)

(** ** [parse_csv] *)

Lemma append_fields_short cols p (row : list string) d :
  (p <= length row)%nat ->
  (length row < p + length cols)%nat ->
  append_fields cols p row d = Err IndexError.
Proof.
  revert p d. induction cols as [|c cols IH]; intros p d Hp Hlen; simpl in *; [lia|].
  destruct (row !! p) as [field|] eqn:E; [|done].
  apply lookup_lt_Some in E. apply IH; lia.
Qed.

(** What one row adds: a cell at the end of each named column, nothing
    elsewhere. *)
Lemma append_fields_long cols p (row : list string) (d : gmap string (list string)) :
  NoDup cols ->
  (p + length cols <= length row)%nat ->
  exists d',
    append_fields cols p row d = Ok d' /\
    (forall k c, cols !! k = Some c ->
       exists field, row !! (p + k)%nat = Some field /\
                     d' !! c = Some (default [] (d !! c) ++ [field])%list) /\
    (forall c, c ∉ cols -> d' !! c = d !! c).
Proof.
  revert p d. induction cols as [|c cols IH]; intros p d Hnd Hlen; simpl in *.
  { exists d. split; [done|]. split; [by intros k c [=]|done]. }
  apply NoDup_cons in Hnd as [Hfresh Hnd].
  assert (Hp : (p < length row)%nat) by lia.
  destruct (lookup_lt_is_Some_2 row p Hp) as [field Hfield]. rewrite Hfield.
  destruct (IH (S p) (<[c := (default [] (d !! c) ++ [field])%list]> d) Hnd
              ltac:(lia)) as (d' & -> & Hcells & Hrest).
  exists d'. split; [done|]. split.
  - intros [|k] c' Hk; simpl in Hk.
    + injection Hk as <-. exists field. rewrite Nat.add_0_r. split; [done|].
      by rewrite (Hrest c Hfresh), lookup_insert_eq.
    + destruct (Hcells k c' Hk) as (f & Hf & Hd). exists f.
      replace (p + S k)%nat with (S p + k)%nat by lia. split; [done|].
      rewrite Hd, lookup_insert_ne; [done|].
      intros ->. apply Hfresh. by eapply list_elem_of_lookup_2.
  - intros c' Hc'. apply not_elem_of_cons in Hc' as [Hne Hc'].
    by rewrite (Hrest c' Hc'), lookup_insert_ne.
Qed.

Lemma append_fields_total cols p (row : list string) d :
  (p + length cols <= length row)%nat ->
  exists d', append_fields cols p row d = Ok d'.
Proof.
  revert p d. induction cols as [|c cols IH]; intros p d Hlen; simpl in *; [eauto|].
  assert (Hp : (p < length row)%nat) by lia.
  destruct (lookup_lt_is_Some_2 row p Hp) as [field ->].
  apply IH. lia.
Qed.

Lemma parse_rows_cells rows cols size (d : gmap string (list string)) :
  NoDup cols ->
  Forall (fun row : list string => (length cols <= length row)%nat) rows ->
  exists d',
    parse_rows rows cols size d = Ok (size + Z.of_nat (length rows), d') /\
    (forall k c, cols !! k = Some c ->
       exists fields,
         Forall2 (fun (row : list string) field => row !! k = Some field) rows fields /\
         default [] (d' !! c) = (default [] (d !! c) ++ fields)%list /\
         (rows <> [] -> is_Some (d' !! c))) /\
    (forall c, c ∉ cols -> d' !! c = d !! c).
Proof.
  intros Hnd Hall. revert size d.
  induction Hall as [|row rows Hrow _ IH]; intros size d; simpl.
  { exists d. rewrite Z.add_0_r. split; [done|]. split; [|done].
    intros k c _. exists []. rewrite app_nil_r. by repeat split. }
  destruct (append_fields_long cols 0 row d Hnd ltac:(simpl; lia))
    as (d1 & -> & Hcells & Hrest). simpl.
  destruct (IH (size + 1) d1) as (d' & -> & Hcells' & Hrest').
  exists d'. split; [f_equal; f_equal; lia|]. split.
  - intros k c Hk. destruct (Hcells k c Hk) as (field & Hfield & Hd1).
    destruct (Hcells' k c Hk) as (fields & Hf2 & Hd' & _).
    exists (field :: fields). split; [by constructor|]. split.
    + rewrite Hd', Hd1. simpl. by rewrite <- app_assoc.
    + intros _. destruct (d' !! c) eqn:E; [eauto|].
      simpl in Hd'. rewrite Hd1 in Hd'. simpl in Hd'.
      by destruct (default [] (d !! c)).
  - intros c Hc. by rewrite (Hrest' c Hc), (Hrest c Hc).
Qed.

Lemma parse_rows_short rows cols size d :
  Exists (fun row : list string => (length row < length cols)%nat) rows ->
  parse_rows rows cols size d = Err IndexError.
Proof.
  intros Hex. revert size d. induction Hex as [row rows Hrow|row rows _ IH];
    intros size d; simpl.
  - by rewrite append_fields_short by (simpl; lia).
  - destruct (append_fields cols 0 row d) as [d1|e] eqn:E; simpl; [apply IH|].
    destruct (Nat.le_gt_cases (length cols) (length row)) as [Hle|Hlt].
    + destruct (append_fields_total cols 0 row d ltac:(simpl; lia)) as (d' & Hd').
      congruence.
    + rewrite append_fields_short in E by (simpl; lia). congruence.
Qed.

Lemma parse_csv_spec rows cols :
  NoDup cols ->
  Forall (fun row : list string => (length cols <= length row)%nat) rows ->
  exists d,
    parse_csv rows cols = Ok (Z.of_nat (length rows), d) /\
    (forall k c i row, cols !! k = Some c -> rows !! i = Some row ->
       exists field, row !! k = Some field /\ csv_cell d c i = Ok field) /\
    (forall c cells, d !! c = Some cells ->
       c ∈ cols /\ length cells = length rows).
Proof.
  intros Hnd Hall.
  destruct (parse_rows_cells rows cols 0 ∅ Hnd Hall) as (d & Hp & Hcells & Hrest).
  exists d. split; [exact Hp|]. split.
  - intros k c i row Hk Hi.
    destruct (Hcells k c Hk) as (fields & Hf & Hd & Hsome).
    rewrite lookup_empty in Hd. simpl in Hd.
    destruct (Forall2_lookup_l _ _ _ _ _ Hf Hi) as (field & Hfi & Hrow).
    exists field. split; [done|]. unfold csv_cell.
    destruct Hsome as [cells Hcs]; [by intros ->|].
    rewrite Hcs in Hd |- *. simpl in Hd. subst cells. by rewrite Hfi.
  - intros c cells Hc.
    destruct (decide (c ∈ cols)) as [Hin|Hnin].
    + split; [done|]. apply list_elem_of_lookup in Hin as [k Hk].
      destruct (Hcells k c Hk) as (fields & Hf & Hd & _).
      rewrite Hc, lookup_empty in Hd. simpl in Hd. subst cells.
      symmetry. by eapply Forall2_length.
    + rewrite (Hrest c Hnin), lookup_empty in Hc. done.
Qed.

(** X1.  When the column names are distinct and every row has at least as
    many fields as there are names, [parse_csv] returns the number of rows
    and a dictionary that holds, for the name at position [k], the [k]-th
    field of every row, in row order, and nothing for any other name. *)
Theorem parse_csv_cells rows cols :
  NoDup cols ->
  Forall (fun row : list string => (length cols <= length row)%nat) rows ->
  exists d,
    parse_csv rows cols = Ok (Z.of_nat (length rows), d) /\
    (forall k c i row, cols !! k = Some c -> rows !! i = Some row ->
       exists field, row !! k = Some field /\ csv_cell d c i = Ok field) /\
    (forall c cells, d !! c = Some cells ->
       c ∈ cols /\ length cells = length rows).
Proof. exact (parse_csv_spec rows cols). Qed.

Lemma parse_csv_cells_witness :
  exists d,
    parse_csv [["db"; "dbo"; "Users"]; ["db"; "dbo"; "Orders"; "x"]]
      ["TABLE_CATALOG"; "TABLE_SCHEMA"; "TABLE_NAME"] = Ok (2, d) /\
    csv_cell d "TABLE_NAME" 1 = Ok "Orders".
Proof.
  destruct (parse_csv_cells [["db"; "dbo"; "Users"]; ["db"; "dbo"; "Orders"; "x"]]
              ["TABLE_CATALOG"; "TABLE_SCHEMA"; "TABLE_NAME"]) as (d & Hp & Hc & _).
  - apply (bool_decide_unpack _). vm_compute. reflexivity.
  - repeat constructor.
  - exists d. split; [exact Hp|].
    destruct (Hc 2%nat "TABLE_NAME" 1%nat ["db"; "dbo"; "Orders"; "x"] eq_refl eq_refl)
      as (field & Hf & Hcell).
    injection Hf as <-. exact Hcell.
Defined.

(** X2.  [parse_csv] fails, with an [IndexError], exactly when some row has
    fewer fields than there are column names (an empty line among them);
    otherwise it succeeds and counts every row. *)
Theorem parse_csv_short_row rows cols :
  (Exists (fun row : list string => (length row < length cols)%nat) rows ->
   parse_csv rows cols = Err IndexError) /\
  (Forall (fun row : list string => (length cols <= length row)%nat) rows ->
   exists d, parse_csv rows cols = Ok (Z.of_nat (length rows), d)).
Proof.
  split.
  - apply parse_rows_short.
  - intros Hall. unfold parse_csv. generalize (∅ : gmap string (list string)).
    change (Z.of_nat (length rows)) with (0 + Z.of_nat (length rows)).
    generalize 0.
    induction Hall as [|row rows Hrow _ IH]; intros size d; simpl.
    + exists d. by rewrite Z.add_0_r.
    + destruct (append_fields_total cols 0 row d ltac:(simpl; lia)) as (d1 & ->).
      simpl. destruct (IH (size + 1) d1) as (d' & ->). exists d'.
      f_equal. f_equal. lia.
Qed.

Lemma parse_csv_short_row_witness :
  parse_csv [["db"; "dbo"; "Users"]; []] ["TABLE_CATALOG"; "TABLE_SCHEMA"]
  = Err IndexError.
Proof.
  apply (parse_csv_short_row [["db"; "dbo"; "Users"]; []]
           ["TABLE_CATALOG"; "TABLE_SCHEMA"]).
  apply Exists_cons_tl, Exists_cons_hd. simpl. lia.
Defined.

(** ** From the catalogue file to the table definitions *)

Lemma catalogue_columns_NoDup : NoDup catalogue_columns.
Proof. apply (bool_decide_unpack _). vm_compute. reflexivity. Qed.

(** Reading row [i] back out of the per-column lists gives the line itself. *)
Lemma add_row_of_parsed (d : gmap string (list string)) (i : nat) row defs :
  (forall k c, catalogue_columns !! k = Some c ->
     exists field, row !! k = Some field /\ csv_cell d c i = Ok field) ->
  add_row d defs i
  = rbind (catalogue_entry row)
      (fun entry =>
         Ok (od_set (fst entry)
               (od_set (fst (snd entry)) (snd (snd entry))
                  (defs_get (fst entry) defs)) defs)).
Proof.
  intros Hcells.
  destruct (Hcells 1%nat _ eq_refl) as (schema & H1 & C1).
  destruct (Hcells 2%nat _ eq_refl) as (table & H2 & C2).
  destruct (Hcells 3%nat _ eq_refl) as (column & H3 & C3).
  destruct (Hcells 6%nat _ eq_refl) as (nullable & H6 & C6).
  destruct (Hcells 7%nat _ eq_refl) as (dtype & H7 & C7).
  destruct (Hcells 8%nat _ eq_refl) as (len & H8 & C8).
  destruct row as [|f0 [|f1 [|f2 [|f3 [|f4 [|f5 [|f6 [|f7 [|f8 rest]]]]]]]]];
    try discriminate.
  simpl in H1, H2, H3, H6, H7, H8.
  injection H1 as ->. injection H2 as ->. injection H3 as ->.
  injection H6 as ->. injection H7 as ->. injection H8 as ->.
  unfold add_row, full_table_name, row_column_def, catalogue_entry.
  rewrite C1, C2, C8, C3, C7, C6. simpl.
  destruct (String.eqb len "NULL"); simpl; [done|].
  destruct (py_int len); done.
Qed.

Lemma add_rows_of_parsed (d : gmap string (list string)) start post defs :
  (forall i row, post !! i = Some row ->
     forall k c, catalogue_columns !! k = Some c ->
       exists field, row !! k = Some field /\
                     csv_cell d c (start + i)%nat = Ok field) ->
  add_rows d (seq start (length post)) defs = add_entries post defs.
Proof.
  revert start defs.
  induction post as [|row post IH]; intros start defs Hcells; simpl; [done|].
  rewrite (add_row_of_parsed d start row defs).
  - destruct (catalogue_entry row) as [entry|e]; simpl; [|done].
    apply IH. intros i r Hi k c Hk.
    replace (S start + i)%nat with (start + S i)%nat by lia.
    by apply (Hcells (S i)).
  - intros k c Hk. destruct (Hcells 0%nat row eq_refl k c Hk) as (f & Hf & Hc).
    rewrite Nat.add_0_r in Hc. eauto.
Qed.

Lemma load_table_definitions_spec rows :
  Forall (fun row : list string => (9 <= length row)%nat) rows ->
  load_table_definitions rows = add_entries rows [].
Proof.
  intros Hall.
  destruct (parse_csv_spec rows catalogue_columns catalogue_columns_NoDup Hall)
    as (d & Hp & Hcells & _).
  unfold load_table_definitions. rewrite Hp. simpl.
  unfold generate_table_definitions. rewrite Nat2Z.id.
  apply (add_rows_of_parsed d 0 rows []).
  intros i row Hi k c Hk. by apply (Hcells k c i row).
Qed.

(** X3.  For a catalogue whose lines all have the nine fields, loading it
    column-wise with [parse_csv] and reading it back row by row in
    [generate_table_definitions] gives exactly what applying the lines one
    after the other gives: each line sets its column in its table, from
    fields 2, 3 (table), 4 (column), 7 (nullable), 8 (type) and 9 (length). *)
Theorem load_table_definitions_rows rows :
  Forall (fun row : list string => (9 <= length row)%nat) rows ->
  load_table_definitions rows = add_entries rows [].
Proof. exact (load_table_definitions_spec rows). Qed.

Lemma load_table_definitions_rows_witness :
  load_table_definitions
    [["db"; "dbo"; "Users"; "Id"; "1"; "NULL"; "NO"; "int"; "NULL"];
     ["db"; "dbo"; "Users"; "Name"; "2"; "NULL"; "YES"; "varchar"; "-1"]]
  = Ok [("dbo.Users",
         [("Id", {| data_type := "int"; is_nullable := false; max_length := None |});
          ("Name", {| data_type := "varchar"; is_nullable := true;
                      max_length := Some (-1) |})])].
Proof.
  rewrite (load_table_definitions_rows
             [["db"; "dbo"; "Users"; "Id"; "1"; "NULL"; "NO"; "int"; "NULL"];
              ["db"; "dbo"; "Users"; "Name"; "2"; "NULL"; "YES"; "varchar"; "-1"]]).
  - reflexivity.
  - repeat constructor.
Defined.

(** ** More on [generate_table_definitions] *)

Lemma od_keys_set {V} k (v : V) d :
  od_keys (od_set k v d)
  = if decide (k ∈ od_keys d) then od_keys d else (od_keys d ++ [k])%list.
Proof.
  destruct (decide (k ∈ od_keys d)) as [Hin|Hnin].
  - apply od_keys_set_present. by apply od_get_Some_key.
  - apply od_keys_set_absent. by apply od_get_None.
Qed.

Lemma first_occurrences_snoc names name :
  first_occurrences (names ++ [name])
  = if decide (name ∈ first_occurrences names) then first_occurrences names
    else (first_occurrences names ++ [name])%list.
Proof. unfold first_occurrences. by rewrite fold_left_app. Qed.

(** The definition a row leaves in the dictionary. *)
Lemma add_row_lookup csv defs r defs' t col cd :
  add_row csv defs r = Ok defs' ->
  full_table_name csv r = Ok t ->
  row_column_def csv r = Ok (col, cd) ->
  od_get col (defs_get t defs') = Some cd.
Proof.
  intros H Ht Hc. unfold add_row in H. rewrite Ht, Hc in H. simpl in H.
  injection H as <-. rewrite defs_get_set_eq. apply od_get_set_eq.
Qed.

Lemma generate_sound n csv defs t col cd :
  generate_table_definitions (Z.of_nat n) csv = Ok defs ->
  od_get col (defs_get t defs) = Some cd ->
  exists j,
    (j < n)%nat /\ full_table_name csv j = Ok t /\
    row_column_def csv j = Ok (col, cd) /\
    (forall k c, (j < k < n)%nat ->
       ~ (full_table_name csv k = Ok t /\ row_column_def csv k = Ok (col, c))).
Proof.
  revert defs. induction n as [|n IH]; intros defs Hgen Hget.
  { injection Hgen as <-. discriminate Hget. }
  pose proof Hgen as Hstep. rewrite generate_step in Hstep.
  destruct (generate_table_definitions (Z.of_nat n) csv) as [d|] eqn:E; [|done].
  simpl in Hstep.
  destruct (add_row_inv _ _ _ _ Hstep) as (t0 & col0 & c0 & Ht0 & Hc0 & _).
  destruct (decide (t0 = t /\ col0 = col)) as [[-> ->]|Hother].
  - exists n. rewrite (add_row_lookup _ _ _ _ _ _ _ Hstep Ht0 Hc0) in Hget.
    injection Hget as <-. repeat split; [lia|done..|]. intros k c Hk. lia.
  - rewrite (add_row_other _ _ _ _ t col Hstep) in Hget.
    + destruct (IH d eq_refl Hget) as (j & Hj & Ht & Hc & Hlast).
      exists j. repeat split; [lia|done..|].
      intros k c Hk [Hkt Hkc]. destruct (decide (k = n)) as [->|Hne].
      * rewrite Ht0 in Hkt. rewrite Hc0 in Hkc.
        injection Hkt as ->. injection Hkc as -> _. by apply Hother.
      * apply (Hlast k c); [lia|done].
    + intros c [Hkt Hkc]. rewrite Ht0 in Hkt. rewrite Hc0 in Hkc.
      injection Hkt as ->. injection Hkc as -> _. by apply Hother.
Qed.

Lemma generate_complete n csv defs j t col cd :
  generate_table_definitions (Z.of_nat n) csv = Ok defs ->
  (j < n)%nat ->
  full_table_name csv j = Ok t -> row_column_def csv j = Ok (col, cd) ->
  (forall k c, (j < k < n)%nat ->
     ~ (full_table_name csv k = Ok t /\ row_column_def csv k = Ok (col, c))) ->
  od_get col (defs_get t defs) = Some cd.
Proof.
  intros Hgen Hj Ht Hc Hlast.
  destruct (generate_prefix n j csv defs ltac:(lia) Hgen) as (before & Hb).
  destruct (generate_prefix n (S j) csv defs ltac:(lia) Hgen) as (after & Ha).
  pose proof Ha as Hstep. rewrite generate_step, Hb in Hstep. simpl in Hstep.
  rewrite (generate_last_wins n (S j) csv after defs t col ltac:(lia) Ha Hgen).
  - by apply (add_row_lookup csv before j after).
  - intros k c Hk. apply Hlast. lia.
Qed.

(** X4.  The dictionary [generate_table_definitions] returns holds a column
    under a table exactly when some catalogue row names that table and
    column, and the definition it holds is that of the last such row:
    nothing is lost and nothing is invented. *)
Theorem generate_table_definitions_lookup n csv defs t col cd :
  generate_table_definitions (Z.of_nat n) csv = Ok defs ->
  od_get col (defs_get t defs) = Some cd <->
  exists j,
    (j < n)%nat /\ full_table_name csv j = Ok t /\
    row_column_def csv j = Ok (col, cd) /\
    (forall k c, (j < k < n)%nat ->
       ~ (full_table_name csv k = Ok t /\ row_column_def csv k = Ok (col, c))).
Proof.
  intros Hgen. split.
  - by apply generate_sound.
  - intros (j & Hj & Ht & Hc & Hlast). by eapply generate_complete.
Qed.

Lemma generate_table_definitions_lookup_witness :
  let csv : gmap string (list string) :=
    list_to_map
      [("TABLE_SCHEMA", ["dbo"; "dbo"]); ("TABLE_NAME", ["Users"; "Users"]);
       ("COLUMN_NAME", ["Id"; "Name"]); ("IS_NULLABLE", ["NO"; "yes"]);
       ("DATA_TYPE", ["int"; "varchar"]);
       ("CHARACTER_MAXIMUM_LENGTH", ["NULL"; "10"])] in
  exists defs,
    generate_table_definitions 2 csv = Ok defs /\
    od_get "Name" (defs_get "dbo.Users" defs)
    = Some {| data_type := "varchar"; is_nullable := false; max_length := Some 10 |}.
Proof.
  intros csv.
  destruct (generate_table_definitions 2 csv) as [defs|] eqn:Hgen;
    [|exfalso; vm_compute in Hgen; discriminate Hgen].
  exists defs. split; [reflexivity|].
  apply (generate_table_definitions_lookup 2 csv defs "dbo.Users" "Name" _ Hgen).
  exists 1%nat. repeat split; [lia|].
  intros k c Hk. lia.
Defined.

Lemma generate_error_step n csv e :
  generate_table_definitions (Z.of_nat n) csv = Err e ->
  generate_table_definitions (Z.of_nat (S n)) csv = Err e.
Proof. intros H. by rewrite generate_step, H. Qed.



(** X6.  [generate_table_definitions] trusts the row count it is given: a
    count larger than the number of cells a column holds fails with an
    [IndexError] as soon as the rows that exist have been read, and a count
    of zero or less reads nothing and returns the empty dictionary. *)
Theorem generate_table_definitions_row_count n csv cells defs :
  csv !! "TABLE_SCHEMA" = Some cells ->
  generate_table_definitions (Z.of_nat (length cells)) csv = Ok defs ->
  ((length cells < n)%nat ->
   generate_table_definitions (Z.of_nat n) csv = Err IndexError) /\
  (forall z, z <= 0 -> generate_table_definitions z csv = Ok []).
Proof.
  intros Hcells Hgen. split.
  - intros Hlt.
    assert (Hnext : generate_table_definitions (Z.of_nat (S (length cells))) csv
                    = Err IndexError).
    { rewrite generate_step, Hgen. simpl.
      unfold add_row, full_table_name, csv_cell. rewrite Hcells.
      by rewrite (lookup_ge_None_2 cells (length cells)). }
    clear Hgen. assert (Hle : (S (length cells) <= n)%nat) by lia.
    induction Hle as [|n Hle IH]; [done|]. apply generate_error_step, IH. lia.
  - intros z Hz. unfold generate_table_definitions.
    by replace (Z.to_nat z) with 0%nat by lia.
Qed.

Lemma generate_table_definitions_row_count_witness :
  let csv : gmap string (list string) :=
    list_to_map
      [("TABLE_SCHEMA", ["dbo"]); ("TABLE_NAME", ["A"]);
       ("COLUMN_NAME", ["x"]); ("IS_NULLABLE", ["NO"]);
       ("DATA_TYPE", ["int"]); ("CHARACTER_MAXIMUM_LENGTH", ["NULL"])] in
  generate_table_definitions 5 csv = Err IndexError.
Proof.
  intros csv.
  destruct (generate_table_definitions_row_count 5 csv ["dbo"]
              [("dbo.A", [("x", {| data_type := "int"; is_nullable := false;
                                   max_length := None |})])])
    as [Hbig _].
  - reflexivity.
  - reflexivity.
  - apply Hbig. simpl. lia.
Defined.

(** The tables and columns the rows name, in row order. *)
Lemma generate_entries n csv defs :
  generate_table_definitions (Z.of_nat n) csv = Ok defs ->
  exists entries : list (string * string),
    length entries = n /\
    (forall i e, entries !! i = Some e ->
       full_table_name csv i = Ok (fst e) /\
       exists cd, row_column_def csv i = Ok (snd e, cd)) /\
    od_keys defs = first_occurrences (map fst entries) /\
    (forall t, od_keys (defs_get t defs)
               = first_occurrences
                   (map snd (filter (fun e : string * string => fst e = t) entries))).
Proof.
  revert defs. induction n as [|n IH]; intros defs Hgen.
  { injection Hgen as <-. exists []. repeat split; done. }
  rewrite generate_step in Hgen.
  destruct (generate_table_definitions (Z.of_nat n) csv) as [d|] eqn:E; [|done].
  simpl in Hgen.
  destruct (IH d eq_refl) as (entries & Hlen & Hrows & Htabs & Hcols).
  destruct (add_row_inv _ _ _ _ Hgen) as (t0 & col0 & c0 & Ht0 & Hc0 & ->).
  exists (entries ++ [(t0, col0)])%list. split; [|split; [|split]].
  - rewrite length_app. simpl. lia.
  - intros i e Hi. apply lookup_app_Some in Hi as [Hi|[Hge Hi]].
    + by apply Hrows.
    + rewrite Hlen in Hge, Hi.
      destruct (i - n)%nat eqn:Hin; [|by destruct n0].
      injection Hi as <-. assert (i = n) as -> by lia. simpl. eauto.
  - rewrite map_app. simpl. rewrite first_occurrences_snoc, <- Htabs. apply od_keys_set.
  - intros t. rewrite filter_app, map_app.
    destruct (decide (t0 = t)) as [->|Hne].
    + rewrite defs_get_set_eq, filter_cons_True by done.
      rewrite filter_nil. simpl.
      rewrite first_occurrences_snoc, <- Hcols. apply od_keys_set.
    + rewrite defs_get_set_ne by done. rewrite filter_cons_False by done.
      rewrite filter_nil. simpl. rewrite app_nil_r. apply Hcols.
Qed.

(** X7.  The iteration order of the result is the order of first mention in
    the catalogue: the tables come in the order in which the rows first name
    them, and so do the columns of each table. *)
Theorem generate_table_definitions_order n csv defs :
  generate_table_definitions (Z.of_nat n) csv = Ok defs ->
  exists entries : list (string * string),
    length entries = n /\
    (forall i e, entries !! i = Some e ->
       full_table_name csv i = Ok (fst e) /\
       exists cd, row_column_def csv i = Ok (snd e, cd)) /\
    od_keys defs = first_occurrences (map fst entries) /\
    (forall t, od_keys (defs_get t defs)
               = first_occurrences
                   (map snd (filter (fun e : string * string => fst e = t) entries))).
Proof. exact (generate_entries n csv defs). Qed.

Lemma generate_table_definitions_order_witness :
  let csv : gmap string (list string) :=
    list_to_map
      [("TABLE_SCHEMA", ["dbo"; "dbo"; "dbo"]); ("TABLE_NAME", ["B"; "A"; "B"]);
       ("COLUMN_NAME", ["y"; "x"; "w"]); ("IS_NULLABLE", ["NO"; "NO"; "NO"]);
       ("DATA_TYPE", ["int"; "int"; "int"]);
       ("CHARACTER_MAXIMUM_LENGTH", ["NULL"; "NULL"; "NULL"])] in
  exists defs,
    generate_table_definitions 3 csv = Ok defs /\
    od_keys defs = ["dbo.B"; "dbo.A"] /\
    od_keys (defs_get "dbo.B" defs) = ["y"; "w"].
Proof.
  intros csv.
  destruct (generate_table_definitions 3 csv) as [defs|] eqn:Hgen;
    [|exfalso; vm_compute in Hgen; discriminate Hgen].
  exists defs. split; [reflexivity|].
  destruct (generate_table_definitions_order 3 csv defs Hgen)
    as (entries & Hlen & Hrows & Htabs & Hcols).
  assert (entries = [("dbo.B", "y"); ("dbo.A", "x"); ("dbo.B", "w")]) as ->.
  { destruct entries as [|[t0 c0] [|[t1 c1] [|[t2 c2] [|? ?]]]]; try discriminate Hlen.
    destruct (Hrows 0%nat _ eq_refl) as [H0 (cd0 & G0)].
    destruct (Hrows 1%nat _ eq_refl) as [H1 (cd1 & G1)].
    destruct (Hrows 2%nat _ eq_refl) as [H2 (cd2 & G2)].
    vm_compute in H0, H1, H2, G0, G1, G2. congruence. }
  split; [exact Htabs|]. exact (Hcols "dbo.B").
Defined.

(** ** The values [random_value] produces *)

(** Either the null draw fires and the value is [NULL], or the call goes on
    as for a column that is not nullable, on the same tape. *)
Lemma random_value_outcome dt ss bs im np w :
  (null_fires np w = true /\
   exists w', random_value dt ss bs im np w = Done (PyStr "NULL") w') \/
  (null_fires np w = false /\
   exists w1, tape w1 = tape w /\
     random_value dt ss bs im np w = random_value dt ss bs im None w1).
Proof.
  destruct (null_fires np w) eqn:Hf.
  - left. split; [done|]. by apply random_value_null.
  - right. split; [done|].
    destruct (null_draw_fires np w) as (w1 & Hd). rewrite Hf in Hd.
    exists w1. split.
    + pose proof (quiet_null_draw np w) as (_ & _ & Ht). by rewrite Hd in Ht.
    + unfold random_value, bind. by rewrite Hd.
Qed.

Ltac dispatch_on_name :=
  repeat match goal with
         | |- context [one_of ?s ?l] =>
             let b := eval vm_compute in (one_of s l) in
             change (one_of s l) with b; cbv iota
         end.

Lemma unfailing_ret {A} (a : A) : unfailing (ret a).
Proof. by intros w. Qed.

Lemma unfailing_bind {A B} (m : M A) (k : A -> M B) :
  unfailing m -> (forall a, unfailing (k a)) -> unfailing (bind m k).
Proof.
  intros Hm Hk w. unfold bind. specialize (Hm w).
  destruct (m w) as [a w'|e w']; [apply Hk|done].
Qed.

Lemma unfailing_draw : unfailing draw.
Proof. by intros w. Qed.

Lemma unfailing_randbelow n : 0 < n -> unfailing (randbelow n).
Proof.
  intros Hn. unfold randbelow. destruct (Z.leb_spec n 0); [lia|].
  apply unfailing_bind; [apply unfailing_draw|intros; apply unfailing_ret].
Qed.

Lemma unfailing_randbits k : 0 <= k -> unfailing (randbits k).
Proof.
  intros Hk. unfold randbits. destruct (Z.ltb_spec k 0); [lia|].
  apply unfailing_bind; [apply unfailing_draw|intros; apply unfailing_ret].
Qed.

Lemma unfailing_null_draw np : unfailing (null_draw np).
Proof. intros w. by destruct (null_draw_done np w) as (b & w' & ->). Qed.

Lemma unfailing_choice : unfailing choice_alphabet.
Proof.
  unfold choice_alphabet. apply unfailing_bind; [|intros; apply unfailing_ret].
  by apply unfailing_randbelow.
Qed.

Lemma unfailing_random_chars n : unfailing (random_chars n).
Proof.
  induction n as [|n IH]; simpl; [apply unfailing_ret|].
  apply unfailing_bind; [apply unfailing_choice|]. intros c.
  apply unfailing_bind; [exact IH|intros; apply unfailing_ret].
Qed.

Create HintDb unfailing.
#[local] Hint Resolve unfailing_ret unfailing_draw unfailing_null_draw
  unfailing_choice unfailing_random_chars : unfailing.
#[local] Hint Extern 2 (unfailing (bind _ _)) =>
  apply unfailing_bind; [|intros] : unfailing.
#[local] Hint Extern 2 (unfailing (randbelow _)) =>
  apply unfailing_randbelow; lia : unfailing.
#[local] Hint Extern 2 (unfailing (randbits _)) =>
  apply unfailing_randbits; lia : unfailing.

Lemma unfailing_date_text : unfailing date_text.
Proof. unfold date_text. auto 10 with unfailing. Qed.

Lemma unfailing_time_text : unfailing time_text.
Proof. unfold time_text. auto 10 with unfailing. Qed.

Lemma unfailing_uuid4_str : unfailing uuid4_str.
Proof. unfold uuid4_str. auto with unfailing. Qed.

#[local] Hint Resolve unfailing_date_text unfailing_time_text
  unfailing_uuid4_str : unfailing.

Lemma unfailing_random_value dt ss bs im np :
  In dt supported_types -> 0 < im -> 0 <= bs ->
  unfailing (random_value dt ss bs im np).
Proof.
  intros Hin Him Hbs. unfold random_value.
  apply unfailing_bind; [apply unfailing_null_draw|].
  intros [|]; [apply unfailing_ret|].
  repeat match goal with
         | |- unfailing (if one_of dt ?l then _ else _) =>
             destruct (one_of dt l) eqn:?; [auto 10 with unfailing|]
         end.
  exfalso. simpl in Hin.
  repeat (destruct Hin as [<- | Hin]; [discriminate|]).
  destruct Hin.
Qed.



(** X9.  For the integer types the value, unless it is [NULL], is an
    integer from zero up to, and not including, the bound of the type: the
    configured maximum for bigint, numeric, decimal and int, its minimum with
    32767 for smallint and with 256 for tinyint.  When that bound is not
    positive and the null draw does not fire, the call raises a
    [ValueError], not the unsupported-type error. *)
Theorem random_value_integer dt bound ss bs im np w :
  (dt ∈ ["bigint"; "numeric"; "decimal"; "int"] /\ bound = im) \/
  (dt = "smallint" /\ bound = Z.min 32767 im) \/
  (dt = "tinyint" /\ bound = Z.min 256 im) ->
  (forall v, value_of (random_value dt ss bs im np w) = Some v ->
     v = PyStr "NULL" \/ exists n, v = PyInt n /\ 0 <= n < bound) /\
  (bound <= 0 -> null_fires np w = false ->
     error_of (random_value dt ss bs im np w)
     = Some (ValueError "Upper bound must be positive.")) /\
  (0 < bound -> error_of (random_value dt ss bs im np w) = None).
Proof.
  intros Hdt.
  assert (Hrun : forall w1, random_value dt ss bs im None w1
                            = bind (randbelow bound) (fun n => ret (PyInt n)) w1).
  { intros w1. destruct Hdt as [[Hin ->]|[[-> ->]|[-> ->]]]; [|reflexivity..].
    apply list_elem_of_In in Hin. simpl in Hin.
    repeat (destruct Hin as [<- | Hin]; [reflexivity|]). destruct Hin. }
  destruct (random_value_outcome dt ss bs im np w)
    as [[Hf (w' & ->)]|[Hf (w1 & _ & ->)]].
  - split; [|split]; simpl; [|congruence|done].
    intros v [= <-]. by left.
  - rewrite Hrun. unfold bind, randbelow.
    destruct (Z.leb_spec bound 0) as [Hle|Hgt]; simpl.
    + split; [|split]; [discriminate|done|lia].
    + split; [|split]; [|lia|done].
      intros v [= <-]. right. eexists. split; [reflexivity|].
      apply Z.mod_pos_bound. lia.
Qed.

Lemma random_value_integer_witness :
  error_of (random_value "smallint" 20 20 0 None (initial_world counting_tape))
  = Some (ValueError "Upper bound must be positive.").
Proof.
  destruct (random_value_integer "smallint" (Z.min 32767 0) 20 20 0 None
              (initial_world counting_tape)) as (_ & Hbad & _).
  - right. left. split; reflexivity.
  - apply Hbad; [lia|reflexivity].
Defined.
(** ** The shape of the generated values *)

Lemma get_In k s c : String.get k s = Some c -> In c (list_ascii_of_string s).
Proof.
  revert k. induction s as [|a s IH]; intros [|k] H; simpl in *;
    try discriminate.
  - left. congruence.
  - right. eauto.
Qed.

Lemma randbelow_pos n w :
  0 < n ->
  exists r w', randbelow n w = Done r w' /\ 0 <= r < n /\ tape w' = tape w.
Proof.
  intros Hn. unfold randbelow. destruct (Z.leb_spec n 0); [lia|].
  unfold bind, draw, ret. eexists _, _. split; [reflexivity|]. split; [|done].
  apply Z.mod_pos_bound. lia.
Qed.

Lemma randbits_nonneg k w :
  0 <= k ->
  exists r w', randbits k w = Done r w' /\ 0 <= r < 2 ^ k /\ tape w' = tape w.
Proof.
  intros Hk. unfold randbits. destruct (Z.ltb_spec k 0); [lia|].
  unfold bind, draw, ret. eexists _, _. split; [reflexivity|]. split; [|done].
  apply Z.mod_pos_bound. lia.
Qed.

Lemma choice_alphabet_spec w :
  exists c w', choice_alphabet w = Done c w' /\ c ∈ alphabet_chars.
Proof.
  unfold choice_alphabet, bind.
  destruct (randbelow_pos (Z.of_nat (String.length alphabet)) w)
    as (i & w' & -> & _); [by vm_compute|].
  unfold ret. eexists _, _. split; [reflexivity|].
  apply list_elem_of_In. destruct (String.get _ alphabet) eqn:Hg.
  - eapply get_In; eauto.
  - by left.
Qed.

Lemma random_chars_spec n w :
  exists s w', random_chars n w = Done s w' /\ String.length s = n /\
    Forall (fun c => c ∈ alphabet_chars) (list_ascii_of_string s).
Proof.
  revert w. induction n as [|n IH]; intros w; simpl.
  - exists "", w. by repeat split.
  - unfold bind. destruct (choice_alphabet_spec w) as (c & w1 & -> & Hc).
    destruct (IH w1) as (s & w2 & -> & Hlen & Hall).
    exists (String c s), w2. simpl. repeat split; [by f_equal|by constructor].
Qed.

Lemma random_value_chars dt ss bs im np w :
  dt ∈ ["char"; "varchar"; "text"; "nchar"; "nvarchar"; "ntext"] ->
  exists v w', random_value dt ss bs im np w = Done v w' /\
    if null_fires np w then v = PyStr "NULL"
    else exists s, v = PyStr ("'" +:+ s +:+ "'") /\
           String.length s = Z.to_nat ss /\
           Forall (fun c => c ∈ alphabet_chars) (list_ascii_of_string s).
Proof.
  intros Hdt.
  assert (Hrun : forall w1, random_value dt ss bs im None w1
            = bind (random_chars (Z.to_nat ss))
                (fun s => ret (PyStr (pad_string_by_apostrophes s))) w1).
  { intros w1. apply list_elem_of_In in Hdt. simpl in Hdt.
    repeat (destruct Hdt as [<- | Hdt]; [reflexivity|]). destruct Hdt. }
  destruct (random_value_outcome dt ss bs im np w)
    as [[-> (w' & ->)]|[-> (w1 & _ & ->)]]; [by eauto|].
  rewrite Hrun. unfold bind.
  destruct (random_chars_spec (Z.to_nat ss) w1) as (s & w2 & -> & Hlen & Hall).
  unfold ret. eexists _, _. split; [reflexivity|]. by exists s.
Qed.

(** X10.  For the six character types the value, unless the null draw
    fires, is a text between two apostrophes of exactly [str_size]
    characters (none when [str_size] is negative), each a letter or a digit
    of the alphabet; the call never raises. *)
Theorem random_value_string dt ss bs im np w :
  dt ∈ ["char"; "varchar"; "text"; "nchar"; "nvarchar"; "ntext"] ->
  exists v w', random_value dt ss bs im np w = Done v w' /\
    if null_fires np w then v = PyStr "NULL"
    else exists s, v = PyStr ("'" +:+ s +:+ "'") /\
           String.length s = Z.to_nat ss /\
           Forall (fun c => c ∈ alphabet_chars) (list_ascii_of_string s).
Proof. apply random_value_chars. Qed.

Lemma random_value_string_witness :
  exists v w', random_value "nvarchar" (-1) 8 10 None (initial_world counting_tape)
               = Done v w' /\
    exists s, v = PyStr ("'" +:+ s +:+ "'") /\
           String.length s = Z.to_nat (-1) /\
           Forall (fun c => c ∈ alphabet_chars) (list_ascii_of_string s).
Proof.
  apply (random_value_string "nvarchar" (-1) 8 10 None
           (initial_world counting_tape)).
  apply (bool_decide_unpack _). vm_compute. reflexivity.
Defined.

(** X11.  A [bit] column gets 0 or 1, or [NULL] when the null draw fires,
    whatever the size and maximum arguments are: in particular the integer
    maximum, which bounds every other integer type, plays no part. *)
Theorem random_value_bit ss bs im np w :
  exists v w', random_value "bit" ss bs im np w = Done v w' /\
    if null_fires np w then v = PyStr "NULL"
    else v = PyInt 0 \/ v = PyInt 1.
Proof.
  destruct (random_value_outcome "bit" ss bs im np w)
    as [[-> (w' & ->)]|[-> (w1 & _ & ->)]]; [by eauto|].
  change (random_value "bit" ss bs im None w1)
    with (bind (randbits 1) (fun b => ret (PyInt b)) w1).
  unfold bind. destruct (randbits_nonneg 1 w1) as (b & w2 & -> & Hb & _); [lia|].
  unfold ret. eexists _, _. split; [reflexivity|].
  change (2 ^ 1) with 2 in Hb.
  assert (b = 0 \/ b = 1) as [-> | ->] by lia; auto.
Qed.



(** X13.  A [float] column, when the null draw does not fire, gets [n / 50]
    for an integer [n] from zero up to, and not including, the minimum of 256
    and the integer maximum, hence a multiple of 0.02 below 5.12; when that
    minimum is not positive the call raises a [ValueError]. *)
Theorem random_value_float ss bs im np w :
  null_fires np w = false ->
  (0 < Z.min 256 im ->
   exists n w', random_value "float" ss bs im np w = Done (PyFloat (n # 50)) w'
     /\ 0 <= n < Z.min 256 im) /\
  (Z.min 256 im <= 0 ->
   error_of (random_value "float" ss bs im np w)
   = Some (ValueError "Upper bound must be positive.")).
Proof.
  intros Hf.
  destruct (random_value_outcome "float" ss bs im np w)
    as [[Hf' _]|[_ (w1 & _ & ->)]]; [congruence|].
  change (random_value "float" ss bs im None w1)
    with (bind (randbelow (Z.min 256 im)) (fun n => ret (PyFloat (n # 50))) w1).
  unfold bind. split.
  - intros Hb. destruct (randbelow_pos _ w1 Hb) as (n & w2 & -> & Hn & _).
    by exists n, w2.
  - intros Hb. unfold randbelow. by destruct (Z.leb_spec (Z.min 256 im) 0); [|lia].
Qed.

Lemma random_value_float_witness :
  exists n w', random_value "float" 5 5 3 None (initial_world counting_tape)
     = Done (PyFloat (n # 50)) w' /\ 0 <= n < Z.min 256 3.
Proof.
  destruct (random_value_float 5 5 3 None (initial_world counting_tape))
    as (Hok & _).
  - reflexivity.
  - apply Hok. lia.
Defined.

Lemma length_app (s1 s2 : string) :
  String.length (s1 +:+ s2) = (String.length s1 + String.length s2)%nat.
Proof. induction s1 as [|c s1 IH]; simpl; [done|by rewrite IH]. Qed.

Lemma fmt02_length z : 0 <= z < 100 -> String.length (fmt02 z) = 2%nat.
Proof.
  intros Hz.
  assert (Hall : forallb (fun k => Nat.eqb (String.length (fmt02 (Z.of_nat k))) 2)
                   (seq 0 100) = true) by (vm_compute; reflexivity).
  rewrite forallb_forall in Hall.
  specialize (Hall (Z.to_nat z)). rewrite Z2Nat.id in Hall by lia.
  apply Nat.eqb_eq, Hall, in_seq. lia.
Qed.

Lemma year_length y : 1000 <= y < 3000 -> String.length (str_int y) = 4%nat.
Proof.
  intros Hy.
  assert (Hall : forallb (fun k => Nat.eqb
                     (String.length (str_int (1000 + Z.of_nat k))) 4)
                   (seq 0 2000) = true) by (vm_compute; reflexivity).
  rewrite forallb_forall in Hall.
  specialize (Hall (Z.to_nat (y - 1000))). rewrite Z2Nat.id in Hall by lia.
  replace (1000 + (y - 1000)) with y in Hall by lia.
  apply Nat.eqb_eq, Hall, in_seq. lia.
Qed.

Lemma date_text_spec w :
  exists y m d w', date_text w
      = Done (str_int y +:+ "-" +:+ fmt02 m +:+ "-" +:+ fmt02 d) w' /\
    tape w' = tape w /\
    1970 <= y < 2030 /\ 1 <= m <= 12 /\ 1 <= d <= 27.
Proof.
  unfold date_text, bind.
  destruct (randbelow_pos 60 w) as (y & w1 & -> & Hy & Ht1); [lia|].
  destruct (randbelow_pos 12 w1) as (m & w2 & -> & Hm & Ht2); [lia|].
  destruct (randbelow_pos 27 w2) as (d & w3 & -> & Hd & Ht3); [lia|].
  exists (1970 + y), (1 + m), (1 + d), w3. unfold ret.
  split; [done|]. split; [congruence|lia].
Qed.

Lemma time_text_spec w :
  exists h m s w', time_text w
      = Done (fmt02 h +:+ ":" +:+ fmt02 m +:+ ":" +:+ fmt02 s) w' /\
    tape w' = tape w /\
    0 <= h < 24 /\ 0 <= m < 60 /\ 0 <= s < 60.
Proof.
  unfold time_text, bind.
  destruct (randbelow_pos 24 w) as (h & w1 & -> & Hh & Ht1); [lia|].
  destruct (randbelow_pos 60 w1) as (m & w2 & -> & Hm & Ht2); [lia|].
  destruct (randbelow_pos 60 w2) as (s & w3 & -> & Hs & Ht3); [lia|].
  exists h, m, s, w3. unfold ret. split; [done|]. split; [congruence|lia].
Qed.

Lemma date_form_length text : date_form text -> String.length text = 10%nat.
Proof.
  intros (y & m & d & -> & Hy & Hm & Hd).
  rewrite !length_app, year_length, !fmt02_length by lia. reflexivity.
Qed.

Lemma time_form_length text : time_form text -> String.length text = 8%nat.
Proof.
  intros (h & m & s & -> & Hh & Hm & Hs).
  rewrite !length_app, !fmt02_length by lia. reflexivity.
Qed.

(** X14.  For the date and time types the value, when the null draw does
    not fire, is a quoted text of fixed width: [YYYY-MM-DD] with the year in
    1970..2029, the month in 1..12 and the day in 1..27 (so every date
    exists in the calendar), [HH:MM:SS] with the hour in 0..23 and minute
    and second in 0..59, both zero-padded, and for datetime and datetime2
    the two separated by one space.  The call never raises. *)
Theorem random_value_temporal dt ss bs im np w :
  dt ∈ ["date"; "datetime"; "datetime2"; "time"] ->
  null_fires np w = false ->
  exists text w',
    random_value dt ss bs im np w = Done (PyStr ("'" +:+ text +:+ "'")) w' /\
    (dt = "date" -> date_form text /\ String.length text = 10%nat) /\
    (dt = "time" -> time_form text /\ String.length text = 8%nat) /\
    (dt = "datetime" \/ dt = "datetime2" ->
     exists d t, text = d +:+ " " +:+ t /\ date_form d /\ time_form t /\
       String.length text = 19%nat).
Proof.
  intros Hdt Hf.
  destruct (random_value_outcome dt ss bs im np w)
    as [[Hf' _]|[_ (w1 & _ & ->)]]; [congruence|].
  destruct (date_text_spec w1) as (y & m & d & w2 & Hdate & _ & Hy & Hm & Hd).
  assert (Hdf : date_form (str_int y +:+ "-" +:+ fmt02 m +:+ "-" +:+ fmt02 d))
    by (by exists y, m, d).
  assert (Hcases : dt = "date" \/ (dt = "datetime" \/ dt = "datetime2")
                   \/ dt = "time").
  { apply list_elem_of_In in Hdt. simpl in Hdt. intuition. }
  clear Hdt. destruct Hcases as [-> | [Hdt | ->]].
  - change (random_value "date" ss bs im None w1)
      with (bind date_text (fun d => ret (PyStr (pad_string_by_apostrophes d))) w1).
    unfold bind. rewrite Hdate. eexists _, _. split; [reflexivity|].
    split; [|split]; [|discriminate|intros [|]; discriminate].
    intros _. split; [done|by apply date_form_length].
  - destruct (time_text_spec w2) as (h & mi & s & w3 & Htime & _ & Hh & Hmi & Hs).
    assert (Htf : time_form (fmt02 h +:+ ":" +:+ fmt02 mi +:+ ":" +:+ fmt02 s))
      by (by exists h, mi, s).
    assert (Hrun : random_value dt ss bs im None w1
              = bind date_text (fun d => bind time_text (fun t =>
                  ret (PyStr (pad_string_by_apostrophes (d +:+ " " +:+ t))))) w1).
    { by destruct Hdt as [-> | ->]. }
    rewrite Hrun. unfold bind. rewrite Hdate, Htime.
    eexists _, _. split; [reflexivity|].
    split; [|split].
    + intros ->. by destruct Hdt.
    + intros ->. by destruct Hdt.
    + intros _. eexists _, _. split; [reflexivity|]. split; [done|]. split; [done|].
      rewrite (length_app _ (" " +:+ _)), (length_app " ").
      rewrite (date_form_length _ Hdf), (time_form_length _ Htf). reflexivity.
  - destruct (time_text_spec w1) as (h & mi & s & w3 & Htime & _ & Hh & Hmi & Hs).
    assert (Htf : time_form (fmt02 h +:+ ":" +:+ fmt02 mi +:+ ":" +:+ fmt02 s))
      by (by exists h, mi, s).
    change (random_value "time" ss bs im None w1)
      with (bind time_text (fun t => ret (PyStr (pad_string_by_apostrophes t))) w1).
    unfold bind. rewrite Htime. eexists _, _. split; [reflexivity|].
    split; [|split]; [discriminate| |intros [|]; discriminate].
    intros _. split; [done|by apply time_form_length].
Qed.

Lemma random_value_temporal_witness :
  exists text w',
    random_value "datetime2" 1 1 1 None (initial_world counting_tape)
      = Done (PyStr ("'" +:+ text +:+ "'")) w' /\
    ("datetime2" = "date" -> date_form text /\ String.length text = 10%nat) /\
    ("datetime2" = "time" -> time_form text /\ String.length text = 8%nat) /\
    ("datetime2" = "datetime" \/ "datetime2" = "datetime2" ->
     exists d t, text = d +:+ " " +:+ t /\ date_form d /\ time_form t /\
       String.length text = 19%nat).
Proof.
  apply (random_value_temporal "datetime2" 1 1 1 None
           (initial_world counting_tape)).
  - apply (bool_decide_unpack _). vm_compute. reflexivity.
  - reflexivity.
Defined.
(** ** The row [insert_statement] builds *)

Lemma od_set_absent {V} k (v : V) d :
  od_get k d = None -> od_set k v d = (d ++ [(k, v)])%list.
Proof.
  induction d as [|[k' v'] d IH]; simpl; [done|].
  destruct (String.eqb_spec k k'); [done|]. intros H. by rewrite IH.
Qed.

Lemma insert_values_spec ss bs im np cols acc w vals w' :
  NoDup (od_keys cols) ->
  (forall k, k ∈ od_keys cols -> k ∉ od_keys acc) ->
  insert_values cols ss bs im np acc w = Done vals w' ->
  exists new, vals = (acc ++ new)%list /\
    Forall2 (column_value ss bs im np) cols new.
Proof.
  revert acc w. induction cols as [|[c d] cols IH]; intros acc w Hnd Hfresh H.
  - injection H as <- _. exists []. by rewrite app_nil_r.
  - simpl in H. unfold bind in H.
    destruct (random_value _ _ _ _ _ w) as [v w1|e w1] eqn:Hv; [|discriminate].
    simpl in Hnd. apply NoDup_cons in Hnd as [Hc Hnd].
    rewrite od_set_absent in H.
    2:{ apply od_get_None, Hfresh. simpl. left. }
    apply IH in H as (new & -> & Hall); [|done|].
    + exists ((c, py_str v) :: new). split; [by rewrite <- app_assoc|].
      constructor; [|done]. split; [done|]. by exists v, w, w1.
    + intros k Hk. unfold od_keys. rewrite map_app. simpl.
      apply not_elem_of_app. split.
      * apply Hfresh. simpl. by right.
      * apply not_elem_of_cons. split; [|apply not_elem_of_nil].
        intros ->. done.
Qed.

Lemma column_value_keys ss bs im np cols vals :
  Forall2 (column_value ss bs im np) cols vals -> od_keys vals = od_keys cols.
Proof.
  induction 1 as [|col entry cols vals [Hk _] _ IH]; simpl; [done|].
  by rewrite Hk, IH.
Qed.

Lemma column_value_get ss bs im np cols vals c d :
  Forall2 (column_value ss bs im np) cols vals ->
  od_get c cols = Some d ->
  exists text, od_get c vals = Some text /\
    column_value ss bs im np (c, d) (c, text).
Proof.
  induction 1 as [|[k d0] [k' text0] cols vals [Hk Hv] _ IH]; simpl; [done|].
  simpl in Hk. subst k'.
  destruct (String.eqb_spec c k) as [->|Hne].
  - intros [= ->]. exists text0. split; [done|]. by split.
  - exact IH.
Qed.

Lemma insert_statement_spec t def ss bs im np w vals stmt w' :
  od_wf def ->
  insert_statement t def ss bs im np w = Done (vals, stmt) w' ->
  Forall2 (column_value ss bs im np) def vals /\
  stmt = "INSERT INTO " +:+ t +:+ " VALUES("
         +:+ String.concat "," (od_values vals) +:+ ")".
Proof.
  intros Hwf H. unfold insert_statement, bind in H.
  destruct (insert_values _ _ _ _ _ _ w) as [vals0 w1|e w1] eqn:Hv; [|discriminate].
  injection H as <- <- _.
  apply insert_values_spec in Hv as (new & -> & Hall); [done|exact Hwf|].
  intros k _. apply not_elem_of_nil.
Qed.

(** X15.  The row of a successful [insert_statement] has one entry per
    column of the table, under the column names and in the order of the
    table definition, which is the order [create_statement] lists the
    columns in; each entry is the text of a value [random_value] returned
    for that column, and the statement lists exactly these texts. *)
Theorem insert_statement_row t def ss bs im np w vals stmt w' :
  od_wf def ->
  insert_statement t def ss bs im np w = Done (vals, stmt) w' ->
  od_keys vals = od_keys def /\
  Forall2 (column_value ss bs im np) def vals /\
  length (od_values vals) = length (map column_definition def) /\
  stmt = "INSERT INTO " +:+ t +:+ " VALUES("
         +:+ String.concat "," (od_values vals) +:+ ")".
Proof.
  intros Hwf H. destruct (insert_statement_spec _ _ _ _ _ _ _ _ _ _ Hwf H)
    as [Hall Hstmt].
  split; [by eapply column_value_keys|]. split; [done|]. split; [|done].
  unfold od_values. rewrite !length_map. symmetry. by eapply Forall2_length.
Qed.

Lemma insert_statement_row_witness :
  exists vals stmt,
    od_keys vals = od_keys person_table /\
    Forall2 (column_value 20 20 36000 (1 # 5)) person_table vals /\
    length (od_values vals) = length (map column_definition person_table) /\
    stmt = "INSERT INTO " +:+ "dbo.Person" +:+ " VALUES("
           +:+ String.concat "," (od_values vals) +:+ ")".
Proof.
  destruct (insert_statement "dbo.Person" person_table 20 20 36000 (1 # 5)
              (initial_world counting_tape)) as [[vals stmt] w'|e w'] eqn:Hrun;
    [|by vm_compute in Hrun].
  exists vals, stmt.
  apply (insert_statement_row "dbo.Person" person_table 20 20 36000 (1 # 5)
           (initial_world counting_tape) vals stmt w').
  - apply (bool_decide_unpack _). vm_compute. reflexivity.
  - exact Hrun.
Defined.

(** X16.  A text column never gets more characters than it declares: in a
    generated row the entry of a column of a character type is [NULL], and
    then the column is nullable, or a quoted text of letters and digits
    whose length is the smaller of the configured string size and the
    column's length, when the column has a non-negative length, and the
    configured string size otherwise. *)
Theorem insert_statement_text_length t def ss bs im np w vals stmt w' c d :
  od_wf def ->
  od_get c def = Some d ->
  data_type d ∈ ["char"; "varchar"; "text"; "nchar"; "nvarchar"; "ntext"] ->
  insert_statement t def ss bs im np w = Done (vals, stmt) w' ->
  exists text, od_get c vals = Some text /\
    ((is_nullable d = true /\ text = "NULL") \/
     exists s, text = "'" +:+ s +:+ "'" /\
       Forall (fun a => a ∈ alphabet_chars) (list_ascii_of_string s) /\
       String.length s = Z.to_nat (match max_length d with
                                   | Some l => if 0 <=? l then Z.min ss l else ss
                                   | None => ss
                                   end)).
Proof.
  intros Hwf Hget Hdt H.
  destruct (insert_statement_spec _ _ _ _ _ _ _ _ _ _ Hwf H) as [Hall _].
  destruct (column_value_get _ _ _ _ _ _ _ _ Hall Hget)
    as (text & Htext & _ & v & wa & wb & Hv & Hpy).
  simpl in Hv, Hpy. exists text. split; [done|].
  destruct (random_value_chars (data_type d) (size_bounds ss bs d).1
              (size_bounds ss bs d).2 im
              (if is_nullable d then Some np else None) wa Hdt)
    as (v' & w'' & Hv' & Hshape).
  rewrite Hv in Hv'. injection Hv' as <- _.
  destruct (null_fires _ wa) eqn:Hf.
  - left. subst v text. split; [|done].
    destruct (is_nullable d); [done|discriminate Hf].
  - right. destruct Hshape as (s & -> & Hlen & Halpha).
    exists s. split; [done|]. split; [done|].
    rewrite Hlen. unfold size_bounds.
    destruct (max_length d) as [l|]; [|done]. by destruct (0 <=? l).
Qed.

Lemma insert_statement_text_length_witness :
  exists vals, exists text, od_get "Code" vals = Some text /\
    ((false = true /\ text = "NULL") \/
     exists s, text = "'" +:+ s +:+ "'" /\
       Forall (fun a => a ∈ alphabet_chars) (list_ascii_of_string s) /\
       String.length s = Z.to_nat (if 0 <=? 5 then Z.min 20 5 else 20)).
Proof.
  destruct (insert_statement "dbo.Person" person_table 20 20 36000 (1 # 5)
              (initial_world counting_tape)) as [[vals stmt] w'|e w'] eqn:Hrun;
    [|by vm_compute in Hrun].
  exists vals.
  apply (insert_statement_text_length "dbo.Person" person_table 20 20 36000
           (1 # 5) (initial_world counting_tape) vals stmt w' "Code"
           {| data_type := "char"; is_nullable := false; max_length := Some 5 |}).
  - apply (bool_decide_unpack _). vm_compute. reflexivity.
  - reflexivity.
  - apply (bool_decide_unpack _). vm_compute. reflexivity.
  - exact Hrun.
Defined.

(** ** What can go wrong *)

Local Ltac named_type :=
  match goal with
  | E : one_of _ _ = true |- _ =>
      apply one_of_In in E; apply list_elem_of_In; simpl in *; tauto
  end.

Lemma random_value_fault dt ss bs im np w e :
  error_of (random_value dt ss bs im np w) = Some e -> value_fault dt bs im e.
Proof.
  destruct (random_value_outcome dt ss bs im np w)
    as [[_ (w' & ->)]|[_ (w1 & _ & ->)]]; [discriminate|].
  intros H. unfold random_value in H. unfold bind at 1 in H.
  change (null_draw None w1) with (Done false w1) in H. cbv beta iota in H.
  repeat match type of H with
         | error_of ((if one_of dt ?l then _ else _) _) = _ =>
             let E := fresh "E" in destruct (one_of dt l) eqn:E
         end;
    try (exfalso;
         match type of H with
         | error_of (?m ?w0) = Some _ =>
             assert (Hu : unfailing m) by auto 10 with unfailing;
             rewrite (Hu w0) in H; discriminate H
         end).
  - unfold bind, randbelow in H. destruct (Z.leb_spec im 0); [|discriminate H].
    injection H as <-. right. left. split; [done|]. split; [|done].
    named_type.
  - unfold bind, randbelow in H.
    destruct (Z.leb_spec (Z.min 32767 im) 0); [|discriminate H].
    injection H as <-. right. left. split; [done|]. split; [|lia].
    named_type.
  - unfold bind, randbelow in H.
    destruct (Z.leb_spec (Z.min 256 im) 0); [|discriminate H].
    injection H as <-. right. left. split; [done|]. split; [|lia].
    named_type.
  - unfold bind, randbelow in H.
    destruct (Z.leb_spec (Z.min 256 im) 0); [|discriminate H].
    injection H as <-. right. left. split; [done|]. split; [|lia].
    named_type.
  - unfold bind, randbits in H. destruct (Z.ltb_spec bs 0); [|discriminate H].
    injection H as <-. right. right. split; [done|]. split; [|done].
    named_type.
  - injection H as <-. left. split; [done|].
    intros Hin. apply list_elem_of_In in Hin. simpl in Hin.
    repeat (destruct Hin as [<- | Hin]; [by vm_compute in *|]). destruct Hin.
Qed.

Lemma size_bounds_bin ss bs d : (size_bounds ss bs d).2 < 0 -> bs < 0.
Proof.
  unfold size_bounds. destruct (max_length d) as [l|]; [|done].
  destruct (Z.leb_spec 0 l); simpl; lia.
Qed.

Lemma size_bounds_bin_nonneg ss bs d : 0 <= bs -> 0 <= (size_bounds ss bs d).2.
Proof. pose proof (size_bounds_bin ss bs d). lia. Qed.

Lemma insert_values_error ss bs im np cols acc w e :
  error_of (insert_values cols ss bs im np acc w) = Some e ->
  exists c d, (c, d) ∈ cols /\ value_fault (data_type d) bs im e.
Proof.
  revert acc w. induction cols as [|[c d] cols IH]; intros acc w H;
    [discriminate H|].
  simpl in H. unfold bind in H.
  destruct (random_value _ _ _ _ _ w) as [v w1|e' w1] eqn:Hv.
  - apply IH in H as (c' & d' & Hin & Hfault). exists c', d'.
    split; [by right|done].
  - simpl in H. injection H as ->. exists c, d. split; [by left|].
    assert (He : error_of (random_value (data_type d) (size_bounds ss bs d).1
                   (size_bounds ss bs d).2 im
                   (if is_nullable d then Some np else None) w) = Some e)
      by (by rewrite Hv).
    apply random_value_fault in He.
    destruct He as [?|[?|(-> & Hin & Hneg)]]; [by left|by right; left|].
    right. right. split; [done|]. split; [done|]. by eapply size_bounds_bin.
Qed.

Lemma insert_statement_fault t def ss bs im np w e :
  error_of (insert_statement t def ss bs im np w) = Some e ->
  exists c d, (c, d) ∈ def /\ value_fault (data_type d) bs im e.
Proof.
  unfold insert_statement, bind. intros H.
  destruct (insert_values _ _ _ _ _ _ w) as [vals w1|e' w1] eqn:Hv;
    [discriminate H|].
  apply (insert_values_error ss bs im np def [] w). by rewrite Hv.
Qed.



Lemma unfailing_column ss bs im np d :
  In (data_type d) supported_types -> 0 < im -> 0 <= bs ->
  unfailing (random_value (data_type d) (size_bounds ss bs d).1
               (size_bounds ss bs d).2 im
               (if is_nullable d then Some np else None)).
Proof.
  intros Hin Him Hbs. apply unfailing_random_value; [done..|].
  by apply size_bounds_bin_nonneg.
Qed.

Lemma unfailing_insert_values ss bs im np cols acc :
  Forall (fun col => data_type col.2 ∈ supported_types) cols ->
  0 < im -> 0 <= bs ->
  unfailing (insert_values cols ss bs im np acc).
Proof.
  intros Hall Him Hbs. revert acc.
  induction Hall as [|[c d] cols Hd _ IH]; intros acc; simpl.
  - apply unfailing_ret.
  - apply unfailing_bind; [|intros v; apply IH].
    apply unfailing_column; [|done..]. by apply list_elem_of_In.
Qed.

Lemma unfailing_insert_statement t def ss bs im np :
  Forall (fun col => data_type col.2 ∈ supported_types) def ->
  0 < im -> 0 <= bs ->
  unfailing (insert_statement t def ss bs im np).
Proof.
  intros Hall Him Hbs. unfold insert_statement.
  apply unfailing_bind; [by apply unfailing_insert_values|].
  intros vals. apply unfailing_ret.
Qed.

(** An unsupported type in a column that is not nullable stops every row. *)
Lemma insert_values_unsupported ss bs im np cols acc c d w :
  (c, d) ∈ cols -> is_nullable d = false ->
  ~ In (data_type d) supported_types ->
  error_of (insert_values cols ss bs im np acc w) <> None.
Proof.
  intros Hin Hnn Hn. revert acc w.
  induction cols as [|[c0 d0] cols IH]; intros acc w;
    [by apply elem_of_nil in Hin|].
  simpl. unfold bind.
  apply elem_of_cons in Hin as [[= <- <-]|Hin].
  - rewrite Hnn.
    destruct (random_value_unsupported (data_type d) (size_bounds ss bs d).1
                (size_bounds ss bs d).2 im None w Hn eq_refl) as (w1 & ->).
    discriminate.
  - destruct (random_value _ _ _ _ _ w) as [v w1|e w1]; [by apply IH|discriminate].
Qed.

Lemma insert_statement_unsupported t def ss bs im np c d w :
  (c, d) ∈ def -> is_nullable d = false ->
  ~ In (data_type d) supported_types ->
  error_of (insert_statement t def ss bs im np w) <> None.
Proof.
  intros Hin Hnn Hn. unfold insert_statement, bind.
  pose proof (insert_values_unsupported ss bs im np def [] c d w Hin Hnn Hn) as He.
  by destruct (insert_values _ _ _ _ _ _ w).
Qed.


(** ** Runs of [stream_insert_statements]: errors and order *)

Lemma pk_value_fault cols vals w e :
  error_of (pk_value cols vals w) = Some e ->
  exists c, (c ∈ cols) /\ od_get c vals = None /\ e = KeyError c.
Proof.
  induction cols as [|c cols IH]; simpl; [discriminate|].
  destruct (od_get c vals) as [v|] eqn:E.
  - unfold bind. destruct (pk_value cols vals w) as [vs w'|e' w'];
      [discriminate|].
    simpl in *. intros H. destruct (IH H) as (c' & Hin & Hget & He).
    exists c'. split; [by right|done].
  - intros [= <-]. exists c. split; [by left|done].
Qed.

Lemma pk_value_missing cols vals c w :
  c ∈ cols -> od_get c vals = None ->
  error_of (pk_value cols vals w) <> None.
Proof.
  intros Hin Hget. induction cols as [|c0 cols IH]; simpl;
    [by apply elem_of_nil in Hin|].
  destruct (od_get c0 vals) as [v|] eqn:E; [|discriminate].
  apply elem_of_cons in Hin as [->|Hin]; [congruence|].
  unfold bind. specialize (IH Hin).
  by destruct (pk_value cols vals w).
Qed.

Lemma od_keys_set_elem {V} k k' (v : V) d :
  k' ∈ od_keys (od_set k v d) <-> k' = k \/ k' ∈ od_keys d.
Proof.
  destruct (od_get k d) as [v0|] eqn:E.
  - rewrite od_keys_set_present by (rewrite E; eauto).
    split; [by right|]. intros [->|H]; [|done].
    apply od_get_Some_key. rewrite E. eauto.
  - rewrite od_keys_set_absent by done. rewrite elem_of_app, list_elem_of_singleton.
    tauto.
Qed.

Lemma insert_values_keys ss bs im np cols acc w vals w' :
  insert_values cols ss bs im np acc w = Done vals w' ->
  forall k, k ∈ od_keys vals <-> k ∈ od_keys acc \/ k ∈ od_keys cols.
Proof.
  revert acc w. induction cols as [|[c d] cols IH]; intros acc w H k.
  - injection H as <- _. simpl. rewrite elem_of_nil. tauto.
  - simpl in H. unfold bind in H.
    destruct (random_value _ _ _ _ _ w) as [v w1|e w1]; [|discriminate].
    rewrite (IH _ _ H k), od_keys_set_elem. simpl. rewrite elem_of_cons. tauto.
Qed.

Lemma insert_statement_keys t def ss bs im np w vals stmt w' :
  insert_statement t def ss bs im np w = Done (vals, stmt) w' ->
  forall k, k ∈ od_keys vals <-> k ∈ od_keys def.
Proof.
  intros H k. unfold insert_statement, bind in H.
  destruct (insert_values _ _ _ _ _ _ w) as [vals0 w1|e w1] eqn:Hv; [|discriminate].
  injection H as <- _ _. rewrite (insert_values_keys _ _ _ _ _ _ _ _ _ Hv k).
  simpl. rewrite elem_of_nil. tauto.
Qed.

Section faults.
Variables (np : Q) (nrows : gmap string Z) (ss bs im : Z) (cap : option Z).
Variable pks : gmap string (option (list string)).

Lemma row_loop_fault positions t def pk_set w e :
  error_of (row_loop positions t def ss bs im np pks pk_set w) = Some e ->
  (exists c d, ((c, d) ∈ def) /\ value_fault (data_type d) bs im e) \/
  (exists cols c, pks !! t = Some (Some cols) /\ (c ∈ cols) /\
     (c ∉ od_keys def) /\ e = KeyError c).
Proof.
  revert pk_set w. induction positions as [|p rest IH]; intros pk_set w;
    [discriminate|].
  simpl. unfold bind at 1, enter_body at 1. unfold bind at 1.
  match goal with
  | |- context [insert_statement t def ss bs im np ?w1] =>
      destruct (insert_statement t def ss bs im np w1)
        as [[vals stmt] w2|e' w2] eqn:Hrow
  end.
  2:{ intros [= <-]. left. pose proof (f_equal error_of Hrow) as He.
      exact (insert_statement_fault _ _ _ _ _ _ _ _ He). }
  destruct (pks !! t) as [[cols|]|] eqn:Hpk; [| apply IH |].
  - unfold bind at 1. simpl fst.
    destruct (pk_value cols vals w2) as [v w3|e' w3] eqn:Hkey.
    + destruct (decide (v ∈ pk_set)); [apply IH|].
      unfold bind, emit. apply IH.
    + intros [= <-]. right.
      destruct (pk_value_fault cols vals w2 e') as (c & Hin & Hget & ->);
        [by rewrite Hkey|].
      exists cols, c. repeat split; try done.
      rewrite <- (insert_statement_keys _ _ _ _ _ _ _ _ _ _ Hrow c).
      by apply od_get_None.
  - unfold bind, emit. apply IH.
Qed.

Lemma table_loop_fault tables w e :
  error_of (table_loop tables nrows ss bs im np cap pks w) = Some e ->
  run_fault tables nrows pks bs im e.
Proof.
  revert w. induction tables as [|[t0 d0] tables IH]; intros w; [discriminate|].
  simpl. unfold bind at 1, rows_per_table.
  destruct (nrows !! t0) as [requested|] eqn:En.
  2:{ intros [= <-]. left. exists t0. split; [by left|done]. }
  unfold ret at 1. unfold bind.
  destruct (row_loop _ t0 d0 ss bs im np pks ∅ w) as [[] w'|e' w'] eqn:Hrow.
  - intros H. destruct (IH w' H)
      as [(t & Hin & Hn & He)|[(t & def & cols & c & Hin & Hrest)
                              |(t & def & c & d & Hin & Hrest)]].
    + left. exists t. split; [by right|done].
    + right. left. exists t, def, cols, c. split; [by right|done].
    + right. right. exists t, def, c, d. split; [by right|done].
  - intros [= <-]. pose proof (f_equal error_of Hrow) as Herr.
    destruct (row_loop_fault _ t0 d0 ∅ w e' Herr)
      as [(c & d & Hin & Hf)|(cols & c & Hp & Hin & Hnot & He)].
    + right. right. exists t0, d0, c, d. split; [by left|done].
    + right. left. exists t0, d0, cols, c. split; [by left|done].
Qed.

(** The rows of a table appear together, table after table. *)
Lemma table_loop_grouped tables w :
  let r := table_loop tables nrows ss bs im np cap pks w in
  exists evs ks,
    written (final_world r) = (written w ++ evs)%list /\
    map ev_table evs = grouped (od_keys tables) ks /\
    (length ks <= length tables)%nat /\
    (error_of r = None -> length ks = length tables).
Proof.
  revert w. induction tables as [|[t0 d0] tables IH]; intros w r.
  { exists [], []. subst r. simpl. by rewrite app_nil_r. }
  pose proof (eq_refl r) as Hr. unfold r at 2 in Hr. clearbody r.
  simpl in Hr. unfold bind at 1, rows_per_table in Hr.
  destruct (nrows !! t0) as [requested|] eqn:En.
  2:{ exists [], []. subst r. simpl. rewrite app_nil_r.
      repeat split; [lia|done]. }
  unfold ret at 1 in Hr. fold (target_rows cap requested) in Hr.
  unfold bind in Hr.
  destruct (row_loop_spec t0 d0 ss bs im np pks
              (range (target_rows cap requested)) ∅ w)
    as (evs & k & Hw & _ & _ & _ & _ & _ & Hall & _).
  assert (Hnames : map ev_table evs = replicate (length evs) t0).
  { clear Hw. induction Hall as [|ev evs [Ht _] _ IHall]; simpl; [done|].
    by rewrite Ht, IHall. }
  destruct (row_loop _ t0 d0 ss bs im np pks ∅ w) as [[] w'|e w'];
    simpl in Hw.
  - destruct (IH w') as (evs' & ks & Hw' & Hg & Hlen & Hdone).
    rewrite <- Hr in *.
    exists (evs ++ evs')%list, (length evs :: ks).
    rewrite Hw', Hw, app_assoc. split; [done|].
    rewrite map_app, Hnames, Hg. unfold grouped. simpl.
    repeat split; [lia|]. intros He. f_equal. by apply Hdone.
  - exists evs, [length evs]. subst r. simpl. split; [done|].
    unfold grouped. simpl. rewrite zip_with_nil_r. simpl. rewrite app_nil_r.
    repeat split; [done|lia|done].
Qed.

Lemma range_cons n : 0 < n -> exists rest, range n = 0 :: rest.
Proof.
  intros Hn. unfold range.
  destruct (Z.to_nat n) as [|k] eqn:E; [lia|]. simpl. eauto.
Qed.

(** A blocked table: its first row cannot be completed, so its loop fails
    before anything is written. *)
Lemma row_loop_blocked positions t def pk_set w :
  positions <> [] ->
  blocked def (pks !! t) ->
  let r := row_loop positions t def ss bs im np pks pk_set w in
  error_of r <> None /\ written (final_world r) = written w.
Proof.
  intros Hne Hblocked r. destruct positions as [|p rest]; [done|].
  pose proof (eq_refl r) as Hr. unfold r at 2 in Hr. clearbody r.
  simpl in Hr. unfold bind at 1, enter_body at 1 in Hr.
  unfold bind at 1 in Hr.
  match type of Hr with
  | context [insert_statement t def ss bs im np ?w0] => set (w1 := w0) in *
  end.
  destruct (quiet_insert_statement t def ss bs im np w1) as (Qw & _ & _).
  destruct (insert_statement t def ss bs im np w1) as [[vals stmt] w2|e w2]
    eqn:Hrow; simpl in Qw.
  2:{ subst r. simpl. by rewrite Qw. }
  destruct Hblocked as [(c & d & Hin & Hnn & Hn)|(cols & c & Hp & Hin & Hnot)].
  - exfalso.
    apply (insert_statement_unsupported t def ss bs im np c d w1 Hin Hnn).
    + by rewrite <- list_elem_of_In.
    + by rewrite Hrow.
  - rewrite Hp in Hr. unfold bind at 1 in Hr. simpl fst in Hr.
    pose proof (pk_value_world cols vals w2) as Hpw.
    assert (Hfail : error_of (pk_value cols vals w2) <> None).
    { apply (pk_value_missing cols vals c w2 Hin). apply od_get_None.
      by rewrite (insert_statement_keys _ _ _ _ _ _ _ _ _ _ Hrow c). }
    destruct (pk_value cols vals w2) as [v w3|e w3]; [done|].
    simpl in Hpw. subst w3 r. simpl. by rewrite Qw.
Qed.

Lemma table_loop_blocked tables t def w :
  od_wf tables ->
  od_get t tables = Some def ->
  (nrows !! t = None \/
   exists requested, nrows !! t = Some requested /\
     0 < target_rows cap requested /\ blocked def (pks !! t)) ->
  let r := table_loop tables nrows ss bs im np cap pks w in
  error_of r <> None /\ inserts_of t (final_world r) = inserts_of t w.
Proof.
  intros Hwf Hget Hcause r.
  destruct (table_loop_spec nrows ss bs im np cap pks tables t def w Hwf Hget)
    as [(He & Hi & _)|(w1 & rq & Hn & Hi1 & _ & Hr1)]; [done|].
  cbn zeta in Hr1. destruct Hr1 as (Hi & _ & Hdone).
  destruct Hcause as [Hnone|(requested & Hrq & Hpos & Hblocked)]; [congruence|].
  rewrite Hn in Hrq. injection Hrq as <-.
  destruct (range_cons _ Hpos) as (rest & Hrange).
  destruct (row_loop_blocked (range (target_rows cap rq)) t def ∅ w1)
    as [Hfail Hw]; [by rewrite Hrange|done|].
  split; [by intros He; apply Hfail, Hdone|].
  fold r in Hi. rewrite Hi. unfold inserts_of at 1. rewrite Hw. exact Hi1.
Qed.
End faults.





(** X21.  A table stops the run, whatever the random source yields, and gets
    no INSERT statement at all, when it has no row count, or when at least
    one row is to be generated for it and either one of its columns that is
    not nullable has an unsupported type or a key column listed for it is not
    one of its columns. *)
Theorem stream_insert_statements_fails defs t def np nrows ss bs im cap pks tape :
  od_wf defs ->
  od_get t defs = Some def ->
  (nrows !! t = None \/
   exists requested, nrows !! t = Some requested /\
     0 < target_rows cap requested /\
     ((exists c d, ((c, d) ∈ def) /\ is_nullable d = false /\
         (data_type d ∉ supported_types)) \/
      (exists cols c, pks !! t = Some (Some cols) /\ (c ∈ cols) /\
         (c ∉ od_keys def)))) ->
  let r := stream_insert_statements defs np nrows ss bs im cap pks
             (initial_world tape) in
  error_of r <> None /\ inserts_of t (final_world r) = [].
Proof.
  intros Hwf Hget Hcause.
  exact (table_loop_blocked np nrows ss bs im cap pks defs t def
           (initial_world tape) Hwf Hget Hcause).
Qed.

Lemma stream_insert_statements_fails_witness :
  let r := stream_insert_statements two_tables (1 # 5)
             {[ "dbo.Person" := 2; "dbo.T" := 3 ]} 20 20 36000 (Some 1000)
             {[ "dbo.T" := Some ["Name"] ]} (initial_world counting_tape) in
  error_of r <> None /\ inserts_of "dbo.T" (final_world r) = [].
Proof.
  apply (stream_insert_statements_fails two_tables "dbo.T" id_table (1 # 5)
           {[ "dbo.Person" := 2; "dbo.T" := 3 ]} 20 20 36000 (Some 1000)
           {[ "dbo.T" := Some ["Name"] ]} counting_tape).
  - apply (bool_decide_unpack _). vm_compute. reflexivity.
  - reflexivity.
  - right. exists 3. split; [reflexivity|]. split; [reflexivity|].
    right. exists ["Name"], "Name". split; [reflexivity|].
    split; apply (bool_decide_unpack _); vm_compute; reflexivity.
Defined.

(** X22.  The INSERT statements of a run come out grouped by table, in the
    order of the catalogue: the table names of the emitted statements are
    some number of times the first table, then some number of times the
    second, and so on; a run that ends in an error stops inside this
    sequence, one that ends without an error has a group, possibly empty,
    for every table. *)
Theorem stream_insert_statements_grouped defs np nrows ss bs im cap pks tape :
  let r := stream_insert_statements defs np nrows ss bs im cap pks
             (initial_world tape) in
  exists ks,
    map ev_table (written (final_world r)) = grouped (od_keys defs) ks /\
    (length ks <= length defs)%nat /\
    (error_of r = None -> length ks = length defs).
Proof.
  intros r.
  destruct (table_loop_grouped np nrows ss bs im cap pks defs (initial_world tape))
    as (evs & ks & Hw & Hg & Hlen & Hdone).
  exists ks. fold r in Hdone. split; [|done].
  unfold r, stream_insert_statements. rewrite Hw. exact Hg.
Qed.

(** X23.  A table whose list of key columns is empty gets at most one INSERT
    statement, however many rows are requested: the key tuple of every row is
    the empty tuple, so every row after the first collides; its CREATE TABLE
    statement carries no key constraint. *)
Theorem empty_key_list_one_row defs t def np nrows ss bs im cap pks tape :
  od_wf defs ->
  od_get t defs = Some def ->
  pks !! t = Some (Some []) ->
  let r := stream_insert_statements defs np nrows ss bs im cap pks
             (initial_world tape) in
  (length (inserts_of t (final_world r)) <= 1)%nat /\
  create_statement t def (Some []) = create_statement t def None.
Proof.
  intros Hwf Hget Hp r. split; [|done].
  destruct (stream_table_rows np nrows ss bs im cap pks defs t def tape Hwf Hget)
    as (_ & _ & Hkeys & _).
  destruct (Hkeys [] Hp) as (keys & Hm & Hnd).
  fold r in Hm. rewrite <- (length_map (key_of [])), Hm, length_map.
  assert (Hall : Forall (fun key => key = []) keys).
  { clear Hnd. revert Hm. generalize (inserts_of t (final_world r)).
    induction keys as [|key keys IH]; intros [|ev evs] Hm; simpl in Hm;
      try done.
    injection Hm as Hk Hm. constructor; [|by eapply IH].
    destruct key; [done|discriminate Hk]. }
  destruct keys as [|k1 [|k2 keys]]; simpl; try lia.
  exfalso. apply Forall_cons in Hall as [-> Hall].
  apply Forall_cons in Hall as [-> _].
  apply NoDup_cons in Hnd as [Hnot _]. apply Hnot. by left.
Qed.

Lemma empty_key_list_one_row_witness :
  let r := stream_insert_statements two_tables (1 # 5)
             {[ "dbo.Person" := 2; "dbo.T" := 3 ]} 20 20 36000 (Some 1000)
             {[ "dbo.T" := Some [] ]} (initial_world counting_tape) in
  (length (inserts_of "dbo.T" (final_world r)) <= 1)%nat /\
  create_statement "dbo.T" id_table (Some []) = create_statement "dbo.T" id_table None.
Proof.
  apply (empty_key_list_one_row two_tables "dbo.T" id_table (1 # 5)
           {[ "dbo.Person" := 2; "dbo.T" := 3 ]} 20 20 36000 (Some 1000)
           {[ "dbo.T" := Some [] ]} counting_tape).
  - apply (bool_decide_unpack _). vm_compute. reflexivity.
  - reflexivity.
  - reflexivity.
Defined.
